(** * Interrupt / shutdown signalling of package [utils] (signal.go)

    A shallow embedding of [InterruptListener], [InterruptRequested] and
    [StartInterrupteListener] together with the Go primitives they are built
    from: channels ([make], receive, [close], [select]), [signal.Notify] and
    the process log.  Goroutines are program counters over the statements of
    the source; the scheduler and the environment (operating system,
    callers) are a list of actions. *)

From stdpp Require Import base list strings.
From Stdlib Require Import Lia.


(** ** Go channels *)

Module Go.

(** A channel of element type [A]: its capacity, the buffered elements
    (oldest first), the values of the goroutines blocked in a send
    statement (oldest first) and the closed flag. *)
Record Chan (A : Type) := MkChan {
  cap : nat;
  buf : list A;
  sendq : list A;
  closed : bool
}.
Arguments MkChan {A} _ _ _ _.
Arguments cap {A} _.
Arguments buf {A} _.
Arguments sendq {A} _.
Arguments closed {A} _.

(** [make(chan A, n)] *)
Definition make {A} (n : nat) : Chan A := MkChan n [] [] false.

(** A receive that does not wait.  [None]: the receive cannot proceed (the
    goroutine would block).  [Some (c', Some v)]: the value [v] was
    received.  [Some (c', None)]: the channel is closed and drained, the
    receive yields the zero value. *)
Definition chanrecv {A} (c : Chan A) : option (Chan A * option A) :=
  match buf c, sendq c with
  | [], [] => if closed c then Some (c, None) else None
  | [], s :: ss => Some (MkChan (cap c) [] ss (closed c), Some s)
  | v :: rest, [] => Some (MkChan (cap c) rest [] (closed c), Some v)
  | v :: rest, s :: ss => Some (MkChan (cap c) (rest ++ [s]) ss (closed c), Some v)
  end.

(** The send statement [c <- v].  [None]: send on a closed channel panics.
    With room in the buffer the value is buffered, otherwise the sender
    blocks in the channel's send queue until a receiver takes its value. *)
Definition chansend {A} (c : Chan A) (v : A) : option (Chan A) :=
  if closed c then None
  else if decide (length (buf c) < cap c)
       then Some (MkChan (cap c) (buf c ++ [v]) (sendq c) false)
       else Some (MkChan (cap c) (buf c) (sendq c ++ [v]) false).

(** [select { case c <- v: default: }], the send used by package signal to
    deliver to a registered channel: the value is dropped when the buffer
    has no room. *)
Definition trysend {A} (c : Chan A) (v : A) : Chan A :=
  if closed c then c
  else if decide (length (buf c) < cap c)
       then MkChan (cap c) (buf c ++ [v]) (sendq c) false
       else c.

(** [close(c)].  [None]: close of a closed channel panics, and so do the
    senders blocked on a channel that is closed under them. *)
Definition closechan {A} (c : Chan A) : option (Chan A) :=
  if closed c then None
  else match sendq c with
       | [] => Some (MkChan (cap c) (buf c) [] true)
       | _ :: _ => None
       end.

End Go.

Import Go.

(** ** Signals and the process log *)

(** The values of [os.Signal] a process can be notified of. *)
Inductive Signal := SIGHUP | SIGINT | SIGQUIT | SIGTERM.

#[global] Instance Signal_eq_dec : EqDecision Signal.
Proof. solve_decision. Defined.

(** [os.Interrupt] *)
Definition os_Interrupt : Signal := SIGINT.

(** [sig.String()] *)
Definition Signal_String (sig : Signal) : string :=
  match sig with
  | SIGHUP => "hangup"
  | SIGINT => "interrupt"
  | SIGQUIT => "quit"
  | SIGTERM => "terminated"
  end.

(** A record of the process log: the message and its key/value context. *)
Record LogRecord := MkLog { msg : string; ctx : list (string * string) }.

#[global] Instance LogRecord_eq_dec : EqDecision LogRecord.
Proof. solve_decision. Defined.

(** [log.Warn(msg, ctx...)] *)
Definition Warn (m : string) (kv : list (string * string)) : LogRecord := MkLog m kv.

(** ** The broadcast feed *)

(** Modelled from the spec: [event.Feed] is imported from go-ethereum and is
    not part of signal.go.  Each subscriber receives an independent delivery
    of every event sent while it is registered; nothing is replayed to a
    subscriber that registers later.  A subscriber is represented by the
    number of deliveries it has received, in order of registration. *)
Record Feed := MkFeed { subscribers : list nat }.

Definition Feed_Subscribe (f : Feed) : Feed := MkFeed (subscribers f ++ [0]).

(** [Send] delivers to every registered subscriber and returns how many
    there were. *)
Definition Feed_Send (f : Feed) : Feed * nat :=
  (MkFeed (S <$> subscribers f), length (subscribers f)).

(** ** The listener goroutines *)

(** What a listener goroutine has done so far, in program order. *)
Inductive Effect :=
| Logged (r : LogRecord)
| Closed                  (* close(c) *)
| Sent (nsent : nat).     (* InterruptFeed.Send(struct{}{}) *)

#[global] Instance Effect_eq_dec : EqDecision Effect.
Proof. solve_decision. Defined.

(** Program points of the goroutine started by [InterruptListener] and by
    [StartInterrupteListener]. *)
Inductive PC :=
| AtNotify        (* before make(chan os.Signal, 1) and signal.Notify *)
| AtFirstSelect   (* blocked in the first select *)
| AtFire          (* before close(c), respectively InterruptFeed.Send *)
| AtLoop.         (* blocked in the select of the for loop *)

#[global] Instance PC_eq_dec : EqDecision PC.
Proof. solve_decision. Defined.

(** The case of a select that fires. *)
Inductive Branch := CaseSignal | CaseRequest.

(** A listener goroutine.  [handle] is the channel [c] that
    [InterruptListener] returns to its caller, shared between the goroutine
    and every holder of the handle; it is [None] for the goroutine of
    [StartInterrupteListener], which has no such channel.
    [interruptChannel] is the goroutine's local channel, a channel nobody
    can send to until the goroutine has made it; [notify] is the set of
    signals it is registered for with [signal.Notify]. *)
Record Listener := MkListener {
  handle : option (Chan unit);
  pc : PC;
  interruptChannel : Chan Signal;
  notify : list Signal;
  effects : list Effect
}.

Definition spawn (h : option (Chan unit)) : Listener :=
  MkListener h AtNotify (make 0) [] [].

(** ** The process *)

Record World := MkWorld {
  interruptSignals : list Signal;
  shutdownRequestChannel : Chan unit;
  InterruptFeed : Feed;
  goroutines : list Listener
}.

(** The package-level variables as initialised at line 13, 17 and 72.
    [init_world sigs] is the process after a platform [init] has replaced
    the signal list by [sigs]. *)
Definition init_world (sigs : list Signal) : World :=
  MkWorld sigs (make 0) (MkFeed []) [].

Definition init : World := init_world [os_Interrupt].

(** Outcome of one action. *)
Inductive Res (A : Type) :=
| Next (a : A)
| Disabled      (* the goroutine is blocked, or there is no such goroutine *)
| Panic.
Arguments Next {A} _.
Arguments Disabled {A}.
Arguments Panic {A}.

(** One statement of a listener goroutine.  The goroutines of
    [InterruptListener] and of [StartInterrupteListener] have the same
    statements except at [AtFire], where the first closes [c] and the
    second sends on [InterruptFeed].  The goroutine reads
    [interruptSignals], receives from [shutdownRequestChannel] and sends on
    [InterruptFeed]; the result carries their new values. *)
Definition listener_step (sigs : list Signal) (req : Chan unit) (feed : Feed)
    (br : Branch) (l : Listener) : Res (Listener * Chan unit * Feed) :=
  match pc l with
  | AtNotify =>
      Next (MkListener (handle l) AtFirstSelect (make 1) sigs (effects l), req, feed)
  | AtFirstSelect =>
      match br with
      | CaseSignal =>
          match chanrecv (interruptChannel l) with
          | Some (ic, Some sig) =>
              Next (MkListener (handle l) AtFire ic (notify l)
                      (effects l ++ [Logged (Warn "received signal" [("sig", Signal_String sig)])]),
                    req, feed)
          | Some (_, None) => Panic
          | None => Disabled
          end
      | CaseRequest =>
          match chanrecv req with
          | Some (req', _) =>
              Next (MkListener (handle l) AtFire (interruptChannel l) (notify l)
                      (effects l ++ [Logged (Warn "received shutdown request" [])]),
                    req', feed)
          | None => Disabled
          end
      end
  | AtFire =>
      match handle l with
      | Some c =>
          match closechan c with
          | Some c' =>
              Next (MkListener (Some c') AtLoop (interruptChannel l) (notify l)
                      (effects l ++ [Closed]), req, feed)
          | None => Panic
          end
      | None =>
          let '(feed', n) := Feed_Send feed in
          Next (MkListener None AtLoop (interruptChannel l) (notify l)
                  (effects l ++ [Sent n]), req, feed')
      end
  | AtLoop =>
      match br with
      | CaseSignal =>
          match chanrecv (interruptChannel l) with
          | Some (ic, Some sig) =>
              Next (MkListener (handle l) AtLoop ic (notify l)
                      (effects l ++ [Logged (Warn "received signal (repeated)" [("sig", Signal_String sig)])]),
                    req, feed)
          | Some (_, None) => Panic
          | None => Disabled
          end
      | CaseRequest =>
          match chanrecv req with
          | Some (req', _) =>
              Next (MkListener (handle l) AtLoop (interruptChannel l) (notify l)
                      (effects l ++ [Logged (Warn "received shutdown request (repeated)" [])]),
                    req', feed)
          | None => Disabled
          end
      end
  end.

(** [InterruptRequested]: a select with one receive case and a default.
    The second component is the channel after the call. *)
Definition InterruptRequested (interrupted : Chan unit) : bool * Chan unit :=
  match chanrecv interrupted with
  | Some (c, _) => (true, c)
  | None => (false, interrupted)
  end.

(** Whether package signal relays [sig] to the channel of [l]: the channel
    is registered once [signal.Notify] has run, for the signals it was
    given, and for every signal when it was given none. *)
Definition wants (l : Listener) (sig : Signal) : Prop :=
  pc l ≠ AtNotify ∧ (notify l = [] ∨ sig ∈ notify l).

(** Package signal's relay of [sig] to the channel of one listener, at the
    moment its loop processes the signal; this may be later than the moment
    the OS raised it.  What the OS does with a signal nobody is registered
    for (the default action, which ends the process for the signals here)
    is not modelled: the runs of [run] include some the real process does
    not live to make. *)
Definition deliver (sig : Signal) (l : Listener) : Listener :=
  if decide (wants l sig)
  then MkListener (handle l) (pc l) (trysend (interruptChannel l) sig) (notify l) (effects l)
  else l.

(** The send statement [shutdownRequestChannel <- struct{}{}] as Go runs
    it for whichever goroutine executes it.  signal.go has no sender of its
    own: this is the environment of its receives at lines 34, 47, 85 and 98
    in its most permissive form, every send staying a blocked sender until
    one receive takes it.  [None] is the panic of a send on a closed
    channel. *)
Definition sendShutdownRequest (req : Chan unit) : option (Chan unit) :=
  chansend req ().

(** Modelled from the spec: the "request shutdown" operation is not in
    signal.go, which only declares [shutdownRequestChannel] and receives
    from it.  By the spec the operation takes no parameter and returns no
    value; the trigger is single-slot: a raise made while none is pending
    leaves one pending occurrence, which is retained until one wait on the
    trigger takes it, and a raise made while one is already pending and
    unobserved is not queued as a second one.  The pending occurrence is a
    sender on the unbuffered channel of line 13. *)
Definition requestShutdown (req : Chan unit) : option (Chan unit) :=
  match sendq req with
  | [] => chansend req ()
  | _ :: _ => Some req
  end.

(** The result of a computation under a projection. *)
Definition Res_map {A B} (f : A → B) (r : Res A) : Res B :=
  match r with
  | Next a => Next (f a)
  | Disabled => Disabled
  | Panic => Panic
  end.

(** What the scheduler, the callers and the environment can do. *)
Inductive Action :=
| CallInterruptListener               (* InterruptListener() *)
| CallStartInterrupteListener         (* StartInterrupteListener() *)
| Run (g : nat) (br : Branch)         (* goroutine g runs its next statement *)
| Deliver (sig : Signal)              (* package signal relays sig to the registered channels *)
| RequestShutdown                     (* a raise of the trigger *)
| Subscribe                           (* InterruptFeed.Subscribe(ch) *)
| CallInterruptRequested (g : nat)    (* InterruptRequested(c), c the handle of g *)
| Await (g : nat).                    (* <-c, c the handle of g *)

#[global] Instance Branch_eq_dec : EqDecision Branch.
Proof. solve_decision. Defined.

#[global] Instance Action_eq_dec : EqDecision Action.
Proof. solve_decision. Defined.

Definition set_goroutines (w : World) (gs : list Listener) : World :=
  MkWorld (interruptSignals w) (shutdownRequestChannel w) (InterruptFeed w) gs.

Definition set_handle (l : Listener) (c : Chan unit) : Listener :=
  MkListener (Some c) (pc l) (interruptChannel l) (notify l) (effects l).

(** [InterruptListener]: makes the channel [c], starts the goroutine and
    returns [c]; the handle is identified by the index of its goroutine. *)
Definition InterruptListener (w : World) : World * nat :=
  (set_goroutines w (goroutines w ++ [spawn (Some (make 0))]), length (goroutines w)).

(** [StartInterrupteListener]: starts the goroutine and returns nothing. *)
Definition StartInterrupteListener (w : World) : World :=
  set_goroutines w (goroutines w ++ [spawn None]).

(** One action of the process.  Here a raise of the trigger is the bare
    send statement [sendShutdownRequest]. *)
Definition step (w : World) (a : Action) : Res World :=
  match a with
  | CallInterruptListener => Next (InterruptListener w).1
  | CallStartInterrupteListener => Next (StartInterrupteListener w)
  | Run g br =>
      match goroutines w !! g with
      | Some l =>
          match listener_step (interruptSignals w) (shutdownRequestChannel w)
                  (InterruptFeed w) br l with
          | Next (l', req, feed) =>
              Next (MkWorld (interruptSignals w) req feed (<[g := l']> (goroutines w)))
          | Disabled => Disabled
          | Panic => Panic
          end
      | None => Disabled
      end
  | Deliver sig =>
      Next (set_goroutines w (deliver sig <$> goroutines w))
  | RequestShutdown =>
      match sendShutdownRequest (shutdownRequestChannel w) with
      | Some req =>
          Next (MkWorld (interruptSignals w) req (InterruptFeed w) (goroutines w))
      | None => Panic
      end
  | Subscribe =>
      Next (MkWorld (interruptSignals w) (shutdownRequestChannel w)
              (Feed_Subscribe (InterruptFeed w)) (goroutines w))
  | CallInterruptRequested g =>
      match goroutines w !! g with
      | Some l =>
          match handle l with
          | Some c =>
              Next (set_goroutines w (<[g := set_handle l (InterruptRequested c).2]> (goroutines w)))
          | None => Disabled
          end
      | None => Disabled
      end
  | Await g =>
      match goroutines w !! g with
      | Some l =>
          match handle l with
          | Some c =>
              match chanrecv c with
              | Some (c', _) => Next (set_goroutines w (<[g := set_handle l c']> (goroutines w)))
              | None => Disabled
              end
          | None => Disabled
          end
      | None => Disabled
      end
  end.

(** A schedule is run action by action; it stops at the first action that
    is disabled or panics. *)
Fixpoint run (w : World) (sched : list Action) : Res World :=
  match sched with
  | [] => Next w
  | a :: rest =>
      match step w a with
      | Next w' => run w' rest
      | Disabled => Disabled
      | Panic => Panic
      end
  end.

(** The process in which every raise goes through [requestShutdown]:
    the steps of [step], with [RequestShutdown] standing for a call of the
    operation instead of a bare send. *)
Definition step_op (w : World) (a : Action) : Res World :=
  match a with
  | RequestShutdown =>
      match requestShutdown (shutdownRequestChannel w) with
      | Some req =>
          Next (MkWorld (interruptSignals w) req (InterruptFeed w) (goroutines w))
      | None => Panic
      end
  | _ => step w a
  end.

Fixpoint run_op (w : World) (sched : list Action) : Res World :=
  match sched with
  | [] => Next w
  | a :: rest =>
      match step_op w a with
      | Next w' => run_op w' rest
      | Disabled => Disabled
      | Panic => Panic
      end
  end.

(** ** Events and the shape of a listener's effects *)

(** What a select of a listener can receive. *)
Inductive Event := GotSignal (sig : Signal) | GotRequest.

(** The record logged for the event of the first select. *)
Definition first_record (e : Event) : LogRecord :=
  match e with
  | GotSignal sig => Warn "received signal" [("sig", Signal_String sig)]
  | GotRequest => Warn "received shutdown request" []
  end.

(** The record logged for an event of the for loop. *)
Definition repeated_record (e : Event) : LogRecord :=
  match e with
  | GotSignal sig => Warn "received signal (repeated)" [("sig", Signal_String sig)]
  | GotRequest => Warn "received shutdown request (repeated)" []
  end.

(** The notification of a listener: [close(c)] for the channel variant, a
    [Send] on the feed for the feed variant. *)
Definition is_fire (h : option (Chan unit)) (f : Effect) : Prop :=
  match h with
  | Some _ => f = Closed
  | None => ∃ n, f = Sent n
  end.

(** The events a listener has received, one per record it has logged. *)
Definition logged (f : Effect) : option LogRecord :=
  match f with Logged r => Some r | _ => None end.

Definition observed (l : Listener) : list LogRecord :=
  omap logged (effects l).

(** How often a listener has closed its handle, and how often it has
    published on the feed. *)
Definition closes (l : Listener) : nat :=
  length (filter (λ f, f = Closed) (effects l)).

Definition is_Sent (f : Effect) : bool :=
  match f with Sent _ => true | _ => false end.

Definition publishes (l : Listener) : nat :=
  length (filter (λ f, is_Sent f = true) (effects l)).

(** The poll of the handle of goroutine [g], as a caller holding the handle
    sees it. *)
Definition poll (w : World) (g : nat) : option bool :=
  l ← goroutines w !! g; c ← handle l; Some (InterruptRequested c).1.

(** ** Invariants of the reachable states *)

Definition handle_ok (l : Listener) : Prop :=
  ∀ c, handle l = Some c → c = MkChan 0 [] [] (bool_decide (pc l = AtLoop)).

Definition ichan_ok (l : Listener) : Prop :=
  match pc l with
  | AtNotify => interruptChannel l = make 0 ∧ notify l = []
  | _ => cap (interruptChannel l) = 1 ∧ length (buf (interruptChannel l)) ≤ 1 ∧
         sendq (interruptChannel l) = [] ∧ closed (interruptChannel l) = false
  end.

Definition trace_ok (l : Listener) : Prop :=
  match pc l with
  | AtNotify | AtFirstSelect => effects l = []
  | AtFire => ∃ e, effects l = [Logged (first_record e)]
  | AtLoop => ∃ e f es,
      effects l = Logged (first_record e) :: f :: ((Logged ∘ repeated_record) <$> es) ∧
      is_fire (handle l) f
  end.

Definition listener_inv (sigs : list Signal) (l : Listener) : Prop :=
  handle_ok l ∧ ichan_ok l ∧ trace_ok l ∧ (pc l ≠ AtNotify → notify l = sigs).

Definition req_ok (req : Chan unit) : Prop :=
  cap req = 0 ∧ buf req = [] ∧ closed req = false.

Definition world_inv (w : World) : Prop :=
  req_ok (shutdownRequestChannel w) ∧
  Forall (listener_inv (interruptSignals w)) (goroutines w).

(** ** Counting raises, receptions and publishes *)

(** The records a listener logs for a shutdown request. *)
Definition is_request (r : LogRecord) : bool :=
  bool_decide (r = first_record GotRequest) || bool_decide (r = repeated_record GotRequest).

(** How many shutdown requests a listener has received. *)
Definition requests_received (l : Listener) : nat :=
  length (filter (λ r, is_request r = true) (observed l)).

(** The shutdown requests received by all listeners together. *)
Definition received (w : World) : nat :=
  sum_list_with requests_received (goroutines w).

(** The raises that no listener has received yet: the senders blocked on
    [shutdownRequestChannel]. *)
Definition pending (w : World) : nat :=
  length (sendq (shutdownRequestChannel w)).

Definition is_raise (a : Action) : bool :=
  match a with RequestShutdown => true | _ => false end.

(** How often the trigger is raised in a schedule. *)
Definition raises (sched : list Action) : nat :=
  length (filter (λ a, is_raise a = true) sched).

(** The publishes of all listeners on [InterruptFeed]. *)
Definition total_publishes (w : World) : nat :=
  sum_list_with publishes (goroutines w).

Definition feed_variant (l : Listener) : nat :=
  match handle l with Some _ => 0 | None => 1 end.

(** How many goroutines of [StartInterrupteListener] there are. *)
Definition feed_listeners (w : World) : nat :=
  sum_list_with feed_variant (goroutines w).

Definition is_start_feed (a : Action) : bool :=
  match a with CallStartInterrupteListener => true | _ => false end.

(** How often [StartInterrupteListener] is called in a schedule. *)
Definition feed_starts (sched : list Action) : nat :=
  length (filter (λ a, is_start_feed a = true) sched).

(** The deliveries subscriber [k] of [InterruptFeed] has received. *)
Definition deliveries (w : World) (k : nat) : option nat :=
  subscribers (InterruptFeed w) !! k.

(** ** Example runs *)

(** The channel-based listener is started and subscribes, the trigger is
    raised and received, the handle is closed, and two more raises are
    received in the loop. *)
Definition sched_fired : list Action :=
  [CallInterruptListener; Run 0 CaseSignal; RequestShutdown; Run 0 CaseRequest;
   Run 0 CaseRequest; RequestShutdown; Run 0 CaseRequest; RequestShutdown;
   Run 0 CaseRequest; CallInterruptRequested 0].

Definition world_fired : World :=
  Eval vm_compute in
    match run init sched_fired with Next w => w | _ => init end.

Definition listener_fired : Listener :=
  Eval vm_compute in default (spawn None) (goroutines world_fired !! 0).

Definition handle_fired : Chan unit := MkChan 0 [] [] true.

(** The feed listener is started with one subscriber registered, an
    interrupt signal arrives and is published; a second subscriber
    registers afterwards and the trigger is raised. *)
Definition sched_feed : list Action :=
  [CallStartInterrupteListener; Subscribe; Run 0 CaseSignal; Deliver SIGINT;
   Run 0 CaseSignal; Run 0 CaseSignal; Subscribe; RequestShutdown;
   Run 0 CaseRequest].

Definition world_feed : World :=
  Eval vm_compute in
    match run init sched_feed with Next w => w | _ => init end.

(** Both listeners are started and subscribe; an interrupt signal arrives
    and the trigger is raised. *)
Definition sched_both : list Action :=
  [CallInterruptListener; CallStartInterrupteListener; Run 0 CaseSignal;
   Run 1 CaseSignal; Deliver SIGINT; RequestShutdown].

Definition world_both : World :=
  Eval vm_compute in
    match run init sched_both with Next w => w | _ => init end.





(** The channel listener has subscribed and holds an interrupt signal;
    the feed listener has been started and has not run yet. *)
Definition sched_mixed : list Action :=
  [CallInterruptListener; CallStartInterrupteListener; Run 0 CaseSignal;
   Deliver SIGINT].

Definition world_mixed : World :=
  Eval vm_compute in
    match run init sched_mixed with Next w => w | _ => init end.

(** ** Measures over goroutines and schedules *)

(** The program points in program order. *)
Definition pc_rank (p : PC) : nat :=
  match p with AtNotify => 0 | AtFirstSelect => 1 | AtFire => 2 | AtLoop => 3 end.

Definition is_call (a : Action) : bool :=
  match a with
  | CallInterruptListener | CallStartInterrupteListener => true
  | _ => false
  end.

(** How often [InterruptListener] or [StartInterrupteListener] is called
    in a schedule. *)
Definition calls (sched : list Action) : nat :=
  length (filter (λ a, is_call a = true) sched).

Definition is_deliver (a : Action) : bool :=
  match a with Deliver _ => true | _ => false end.

(** How many signals the OS delivers in a schedule. *)
Definition signals_delivered (sched : list Action) : nat :=
  length (filter (λ a, is_deliver a = true) sched).

(** How many signals a listener has logged. *)
Definition signals_received (l : Listener) : nat :=
  length (filter (λ r, is_request r = false) (observed l)).

(** The signals goroutine [g] has logged or holds in its slot; 0 when
    there is no such goroutine. *)
Definition signals_held (w : World) (g : nat) : nat :=
  match goroutines w !! g with
  | Some l => signals_received l + length (buf (interruptChannel l))
  | None => 0
  end.

(** The case of a select other than [br]. *)
Definition other_case (br : Branch) : Branch :=
  match br with CaseSignal => CaseRequest | CaseRequest => CaseSignal end.

(** The first listener of [world_both]: subscribed, in its first select,
    with the interrupt signal in its slot. *)
Definition listener_both : Listener :=
  Eval vm_compute in default (spawn None) (goroutines world_both !! 0).

(** From [world_both]: the first listener takes the signal and closes its
    handle, and [InterruptListener] is called once more. *)
Definition sched_more : list Action :=
  [Run 0 CaseSignal; Run 0 CaseSignal; CallInterruptListener].

Definition world_more : World :=
  Eval vm_compute in
    match run world_both sched_more with Next w => w | _ => init end.

(** ** Channel lemmas *)

Lemma chanrecv_req (req : Chan unit) :
  req_ok req →
  chanrecv req = match sendq req with
                 | [] => None
                 | s :: ss => Some (MkChan 0 [] ss false, Some s)
                 end.
Proof.
  destruct req as [n b q cl]; intros (Hc & Hb & Hcl); simpl in *; subst.
  unfold chanrecv; simpl. by destruct q.
Qed.

Lemma chanrecv_ichan (ic : Chan Signal) :
  cap ic = 1 → length (buf ic) ≤ 1 → sendq ic = [] → closed ic = false →
  chanrecv ic = match buf ic with
                | [] => None
                | sig :: _ => Some (MkChan 1 [] [] false, Some sig)
                end.
Proof.
  destruct ic as [n b q cl]; simpl; intros -> Hb -> ->.
  unfold chanrecv; simpl. destruct b as [|sig [|]]; simpl in *; try done; lia.
Qed.

Lemma chanrecv_handle (b : bool) :
  chanrecv (MkChan 0 ([] : list unit) [] b) =
  if b then Some (MkChan 0 [] [] b, None) else None.
Proof. by destruct b. Qed.

Lemma InterruptRequested_handle (b : bool) :
  InterruptRequested (MkChan 0 [] [] b) = (b, MkChan 0 [] [] b).
Proof. unfold InterruptRequested. rewrite chanrecv_handle. by destruct b. Qed.

Lemma trysend_ichan (ic : Chan Signal) sig :
  cap ic = 1 → length (buf ic) ≤ 1 → sendq ic = [] → closed ic = false →
  cap (trysend ic sig) = 1 ∧ length (buf (trysend ic sig)) ≤ 1 ∧
  sendq (trysend ic sig) = [] ∧ closed (trysend ic sig) = false.
Proof.
  destruct ic as [n b q cl]; simpl; intros -> Hb -> ->.
  unfold trysend; simpl. case_decide; simpl; [|done].
  rewrite length_app; simpl. repeat split; lia.
Qed.

(** ** Preservation of the invariants *)

Lemma spawn_inv sigs h :
  (∀ c, h = Some c → c = make 0) → listener_inv sigs (spawn h).
Proof.
  intros Hh. repeat split; try done.
Qed.

Lemma trace_ok_loop_snoc h ic n fx ic' n' e :
  trace_ok (MkListener h AtLoop ic n fx) →
  trace_ok (MkListener h AtLoop ic' n' (fx ++ [Logged (repeated_record e)])).
Proof.
  unfold trace_ok; simpl. intros (e0 & f & es & -> & Hf).
  exists e0, f, (es ++ [e]). split; [|done].
  by rewrite fmap_app, !app_comm_cons.
Qed.

Lemma listener_step_inv sigs req feed br l l' req' feed' :
  listener_inv sigs l → req_ok req →
  listener_step sigs req feed br l = Next (l', req', feed') →
  listener_inv sigs l' ∧ req_ok req'.
Proof.
  intros (Hh & Hi & Ht & Hn) Hreq.
  destruct l as [h p ic n fx]. unfold listener_step; simpl.
  unfold listener_inv, handle_ok, ichan_ok, trace_ok in *; simpl in *.
  destruct p; simpl in *.
  - (* signal.Notify *)
    intros [= <- <- <-]. destruct Hi as [-> ->]. subst fx.
    split; [|done]. simpl. split; [|split; [|split]].
    + intros c Hc. by rewrite (Hh c Hc).
    + repeat split; simpl; lia.
    + done.
    + done.
  - (* first select *)
    destruct Hi as (Hc & Hb & Hq & Hcl). subst fx.
    destruct br.
    + rewrite (chanrecv_ichan ic) by done.
      destruct (buf ic) as [|sig rest]; [done|].
      intros [= <- <- <-]. split; [|done]. simpl. split; [|split; [|split]].
      * intros c Hc'. by rewrite (Hh c Hc').
      * repeat split; simpl; lia.
      * by exists (GotSignal sig).
      * intros _. by apply Hn.
    + rewrite (chanrecv_req req) by done.
      destruct (sendq req) as [|s ss]; [done|].
      intros [= <- <- <-]. split; [|done]. simpl. split; [|split; [|split]].
      * intros c Hc'. by rewrite (Hh c Hc').
      * done.
      * by exists GotRequest.
      * intros _. by apply Hn.
  - (* close(c) / InterruptFeed.Send *)
    destruct Ht as [e ->]. destruct h as [c|].
    + rewrite (Hh c eq_refl); simpl. unfold closechan; simpl.
      intros [= <- <- <-]. split; [|done]. simpl. split; [|split; [|split]].
      * by intros c' [= <-].
      * done.
      * by exists e, Closed, [].
      * intros _. by apply Hn.
    + simpl. intros [= <- <- <-]. split; [|done]. simpl. split; [|split; [|split]].
      * done.
      * done.
      * exists e, (Sent (length (subscribers feed))), []. split; [done|]. by eexists.
      * intros _. by apply Hn.
  - (* select of the loop *)
    destruct Hi as (Hc & Hb & Hq & Hcl).
    destruct br.
    + rewrite (chanrecv_ichan ic) by done.
      destruct (buf ic) as [|sig rest]; [done|].
      intros [= <- <- <-]. split; [|done]. simpl. split; [|split; [|split]].
      * done.
      * repeat split; simpl; lia.
      * exact (trace_ok_loop_snoc h ic n fx ic n (GotSignal sig) Ht).
      * done.
    + rewrite (chanrecv_req req) by done.
      destruct (sendq req) as [|s ss]; [done|].
      intros [= <- <- <-]. split; [|done]. simpl. split; [|split; [|split]].
      * done.
      * done.
      * exact (trace_ok_loop_snoc h ic n fx ic n GotRequest Ht).
      * done.
Qed.

Lemma listener_step_no_panic sigs req feed br l :
  listener_inv sigs l → req_ok req →
  listener_step sigs req feed br l ≠ Panic.
Proof.
  intros (Hh & Hi & Ht & Hn) Hreq.
  destruct l as [h p ic n fx]. unfold listener_step; simpl.
  unfold handle_ok, ichan_ok, trace_ok in *; simpl in *.
  destruct p; simpl in *; [done| | |].
  - destruct Hi as (Hc & Hb & Hq & Hcl). destruct br.
    + rewrite (chanrecv_ichan ic) by done. by destruct (buf ic).
    + rewrite (chanrecv_req req) by done. by destruct (sendq req).
  - destruct h as [c|]; [|done]. by rewrite (Hh c eq_refl).
  - destruct Hi as (Hc & Hb & Hq & Hcl). destruct br.
    + rewrite (chanrecv_ichan ic) by done. by destruct (buf ic).
    + rewrite (chanrecv_req req) by done. by destruct (sendq req).
Qed.

Lemma deliver_inv sigs sig l : listener_inv sigs l → listener_inv sigs (deliver sig l).
Proof.
  intros (Hh & Hi & Ht & Hn). unfold deliver. case_decide as Hin; [|done].
  destruct l as [h p ic n fx].
  unfold listener_inv, handle_ok, ichan_ok, trace_ok in *; simpl in *.
  repeat split; try done.
  destruct p; simpl in *; try (destruct Hi as (? & ? & ? & ?); by apply trysend_ichan).
  by destruct Hin as [Hin _].
Qed.

Lemma set_handle_same l c : handle l = Some c → set_handle l c = l.
Proof. destruct l; simpl; by intros ->. Qed.

Lemma InterruptRequested_inv sigs l c :
  listener_inv sigs l → handle l = Some c →
  InterruptRequested c = (bool_decide (pc l = AtLoop), c).
Proof.
  intros (Hh & _) Hc. rewrite (Hh c Hc) at 1 2.
  rewrite InterruptRequested_handle. by rewrite <- (Hh c Hc).
Qed.

Lemma chanrecv_inv sigs l c c' v :
  listener_inv sigs l → handle l = Some c →
  chanrecv c = Some (c', v) → c' = c ∧ v = None ∧ pc l = AtLoop.
Proof.
  intros (Hh & _) Hc. rewrite (Hh c Hc) at 1. rewrite chanrecv_handle.
  case_bool_decide as Hp; [|done]. intros [= <- <-].
  rewrite (Hh c Hc). by rewrite bool_decide_eq_true_2.
Qed.

Lemma init_world_inv sigs : world_inv (init_world sigs).
Proof. split; [done|]. constructor. Qed.

Lemma step_inv w a w' : world_inv w → step w a = Next w' → world_inv w'.
Proof.
  intros [Hreq Hgs]. destruct a; simpl.
  - intros [= <-]. split; [done|]. simpl.
    apply Forall_app; split; [done|]. constructor; [|constructor].
    apply spawn_inv. by intros c [= <-].
  - intros [= <-]. split; [done|]. simpl.
    apply Forall_app; split; [done|]. constructor; [|constructor].
    by apply spawn_inv.
  - destruct (goroutines w !! g) as [l|] eqn:Hl; [|done].
    destruct (listener_step _ _ _ _ _) as [[[l' req] feed]| |] eqn:Hs; try done.
    intros [= <-].
    apply listener_step_inv in Hs as [Hl' Hreq']; [|by eapply Forall_lookup_1|done].
    split; [done|]. simpl. by apply Forall_insert.
  - intros [= <-]. split; [done|]. simpl.
    apply Forall_fmap. eapply Forall_impl; [exact Hgs|].
    intros l Hl. by apply deliver_inv.
  - destruct Hreq as (Hc & Hb & Hcl). unfold sendShutdownRequest, chansend.
    rewrite Hcl, Hc, Hb; simpl. intros [= <-]. by split.
  - intros [= <-]. by split.
  - destruct (goroutines w !! g) as [l|] eqn:Hl; [|done].
    destruct (handle l) as [c|] eqn:Hc; [|done].
    intros [= <-]. split; [done|]. simpl.
    pose proof (Forall_lookup_1 _ _ _ _ Hgs Hl) as Hinv.
    rewrite (InterruptRequested_inv _ _ _ Hinv Hc); simpl.
    rewrite set_handle_same by done. by rewrite list_insert_id.
  - destruct (goroutines w !! g) as [l|] eqn:Hl; [|done].
    destruct (handle l) as [c|] eqn:Hc; [|done].
    destruct (chanrecv c) as [[c' v]|] eqn:Hr; [|done].
    intros [= <-]. split; [done|]. simpl.
    pose proof (Forall_lookup_1 _ _ _ _ Hgs Hl) as Hinv.
    destruct (chanrecv_inv _ _ _ _ _ Hinv Hc Hr) as (-> & _ & _).
    rewrite set_handle_same by done. by rewrite list_insert_id.
Qed.

Lemma step_no_panic w a : world_inv w → step w a ≠ Panic.
Proof.
  intros [Hreq Hgs]. destruct a; simpl; try done.
  - destruct (goroutines w !! g) as [l|] eqn:Hl; [|done].
    pose proof (Forall_lookup_1 _ _ _ _ Hgs Hl) as Hinv.
    pose proof (listener_step_no_panic _ _ (InterruptFeed w) br _ Hinv Hreq) as Hnp.
    by destruct (listener_step _ _ _ _ _) as [[[l' req] feed]| |].
  - destruct Hreq as (Hc & Hb & Hcl). unfold sendShutdownRequest, chansend.
    by rewrite Hcl, Hc, Hb.
  - destruct (goroutines w !! g) as [l|]; [|done]. by destruct (handle l).
  - destruct (goroutines w !! g) as [l|]; [|done].
    destruct (handle l); [|done]. by destruct (chanrecv _) as [[]|].
Qed.

Lemma run_inv sched : ∀ w w', world_inv w → run w sched = Next w' → world_inv w'.
Proof.
  induction sched as [|a rest IH]; simpl; intros w w' Hw.
  - by intros [= <-].
  - destruct (step w a) as [w1| |] eqn:Hs; try done.
    apply IH. by eapply step_inv.
Qed.


Lemma run_app s1 : ∀ s2 w,
  run w (s1 ++ s2) = match run w s1 with
                     | Next w1 => run w1 s2
                     | Disabled => Disabled
                     | Panic => Panic
                     end.
Proof.
  induction s1 as [|a s1 IH]; simpl; intros s2 w; [done|].
  by destruct (step w a).
Qed.

(** ** A polled or awaited handle is left as it is *)

Lemma world_listener_inv w g l :
  world_inv w → goroutines w !! g = Some l → listener_inv (interruptSignals w) l.
Proof. intros [_ Hgs] Hl. by eapply Forall_lookup_1. Qed.

Lemma step_poll_id w g w' :
  world_inv w → step w (CallInterruptRequested g) = Next w' → w' = w.
Proof.
  intros [Hreq Hgs]. simpl.
  destruct (goroutines w !! g) as [l|] eqn:Hl; [|done].
  destruct (handle l) as [c|] eqn:Hc; [|done].
  intros [= <-].
  pose proof (Forall_lookup_1 _ _ _ _ Hgs Hl) as Hinv.
  rewrite (InterruptRequested_inv _ _ _ Hinv Hc); simpl.
  rewrite set_handle_same by done. rewrite list_insert_id by done.
  by destruct w.
Qed.

Lemma step_await_id w g w' :
  world_inv w → step w (Await g) = Next w' → w' = w.
Proof.
  intros [Hreq Hgs]. simpl.
  destruct (goroutines w !! g) as [l|] eqn:Hl; [|done].
  destruct (handle l) as [c|] eqn:Hc; [|done].
  destruct (chanrecv c) as [[c' v]|] eqn:Hr; [|done].
  intros [= <-].
  pose proof (Forall_lookup_1 _ _ _ _ Hgs Hl) as Hinv.
  destruct (chanrecv_inv _ _ _ _ _ Hinv Hc Hr) as (-> & _ & _).
  rewrite set_handle_same by done. rewrite list_insert_id by done.
  by destruct w.
Qed.

(** ** The loop is never left *)

Lemma listener_step_loop sigs req feed br l l' req' feed' :
  pc l = AtLoop →
  listener_step sigs req feed br l = Next (l', req', feed') →
  pc l' = AtLoop ∧ handle l' = handle l ∧ feed' = feed ∧
  ∃ e, effects l' = effects l ++ [Logged (repeated_record e)].
Proof.
  destruct l as [h p ic n fx]; simpl. intros ->.
  unfold listener_step; simpl. destruct br.
  - destruct (chanrecv ic) as [[ic' [sig|]]|]; try done.
    intros [= <- <- <-]. repeat split. by exists (GotSignal sig).
  - destruct (chanrecv req) as [[r v]|]; try done.
    intros [= <- <- <-]. repeat split. by exists GotRequest.
Qed.

Lemma step_loop w a w' g l :
  world_inv w → step w a = Next w' →
  goroutines w !! g = Some l → pc l = AtLoop →
  ∃ l' es, goroutines w' !! g = Some l' ∧ pc l' = AtLoop ∧ handle l' = handle l ∧
           effects l' = effects l ++ ((Logged ∘ repeated_record) <$> es).
Proof.
  intros Hw Hs Hl Hp.
  destruct a; try (simpl in Hs; injection Hs as <-; simpl).
  - exists l, []. rewrite lookup_app_l by (by eapply lookup_lt_Some).
    by rewrite app_nil_r.
  - exists l, []. rewrite lookup_app_l by (by eapply lookup_lt_Some).
    by rewrite app_nil_r.
  - simpl in Hs.
    destruct (goroutines w !! g0) as [l0|] eqn:Hl0; [|done].
    destruct (listener_step _ _ _ _ _) as [[[l1 req] feed]| |] eqn:Hls; try done.
    injection Hs as <-. simpl.
    destruct (decide (g0 = g)) as [->|Hne].
    + rewrite Hl in Hl0. injection Hl0 as <-.
      apply listener_step_loop in Hls as (Hp' & Hh' & _ & e & He); [|done].
      exists l1, [e]. rewrite list_lookup_insert_eq by (by eapply lookup_lt_Some).
      done.
    + exists l, []. rewrite list_lookup_insert_ne by done. by rewrite app_nil_r.
  - exists (deliver sig l), []. rewrite list_lookup_fmap, Hl. simpl.
    rewrite app_nil_r. unfold deliver. by case_decide.
  - simpl in Hs. destruct (sendShutdownRequest _); [|done]. injection Hs as <-.
    exists l, []. by rewrite app_nil_r.
  - exists l, []. by rewrite app_nil_r.
  - apply step_poll_id in Hs as ->; [|done]. exists l, []. by rewrite app_nil_r.
  - apply step_await_id in Hs as ->; [|done]. exists l, []. by rewrite app_nil_r.
Qed.

Lemma run_loop sched : ∀ w w' g l,
  world_inv w → run w sched = Next w' →
  goroutines w !! g = Some l → pc l = AtLoop →
  ∃ l' es, goroutines w' !! g = Some l' ∧ pc l' = AtLoop ∧ handle l' = handle l ∧
           effects l' = effects l ++ ((Logged ∘ repeated_record) <$> es).
Proof.
  induction sched as [|a rest IH]; simpl; intros w w' g l Hw Hr Hl Hp.
  - injection Hr as <-. exists l, []. by rewrite app_nil_r.
  - destruct (step w a) as [w1| |] eqn:Hs; try done.
    destruct (step_loop _ _ _ _ _ Hw Hs Hl Hp) as (l1 & es1 & Hl1 & Hp1 & Hh1 & He1).
    destruct (IH w1 w' g l1 (step_inv _ _ _ Hw Hs) Hr Hl1 Hp1)
      as (l' & es2 & Hl' & Hp' & Hh' & He').
    exists l', (es1 ++ es2). repeat split; try done; try congruence.
    by rewrite He', He1, fmap_app, app_assoc.
Qed.

(** ** Counting the effects of a listener *)

Lemma observed_app_repeated fx es :
  omap logged (fx ++ ((Logged ∘ repeated_record) <$> es)) =
  omap logged fx ++ (repeated_record <$> es).
Proof.
  rewrite omap_app. f_equal. induction es as [|e es IH]; csimpl; [done|]. by f_equal.
Qed.

Lemma filter_Closed_repeated es :
  filter (λ f, f = Closed) ((Logged ∘ repeated_record) <$> es) = [].
Proof.
  induction es as [|e es IH]; simpl; [done|].
  rewrite filter_cons_False by done. exact IH.
Qed.

Lemma filter_Sent_repeated es :
  filter (λ f, is_Sent f = true) ((Logged ∘ repeated_record) <$> es) = [].
Proof.
  induction es as [|e es IH]; simpl; [done|].
  rewrite filter_cons_False by done. exact IH.
Qed.

Lemma closes_spec sigs l :
  listener_inv sigs l →
  closes l = if decide (pc l = AtLoop ∧ is_Some (handle l)) then 1 else 0.
Proof.
  intros (Hh & Hi & Ht & Hn). destruct l as [h p ic n fx].
  unfold closes, trace_ok in *; cbn [pc handle effects] in *.
  destruct (decide _) as [[-> [c ->]]|Hd].
  - destruct Ht as (e & f & es & -> & Hf). cbn in Hf. subst f.
    rewrite filter_cons_False by done. rewrite filter_cons_True by done.
    cbn. by rewrite filter_Closed_repeated.
  - destruct p.
    + by subst.
    + by subst.
    + by destruct Ht as [e ->].
    + destruct Ht as (e & f & es & -> & Hf).
      destruct h as [c|]; [exfalso; apply Hd; split; [done|by eexists]|].
      destruct Hf as [k ->].
      rewrite !filter_cons_False by done. by rewrite filter_Closed_repeated.
Qed.

Lemma publishes_spec sigs l :
  listener_inv sigs l →
  publishes l = if decide (pc l = AtLoop ∧ handle l = None) then 1 else 0.
Proof.
  intros (Hh & Hi & Ht & Hn). destruct l as [h p ic n fx].
  unfold publishes, trace_ok in *; cbn [pc handle effects] in *.
  destruct (decide _) as [[-> ->]|Hd].
  - destruct Ht as (e & f & es & -> & [k ->]).
    rewrite filter_cons_False by done. rewrite filter_cons_True by done.
    cbn. by rewrite filter_Sent_repeated.
  - destruct p.
    + by subst.
    + by subst.
    + by destruct Ht as [e ->].
    + destruct Ht as (e & f & es & -> & Hf).
      destruct h as [c|]; [|by exfalso; apply Hd].
      cbn in Hf. subst f.
      rewrite !filter_cons_False by done. by rewrite filter_Sent_repeated.
Qed.

Lemma observed_spec sigs l :
  listener_inv sigs l →
  match pc l with
  | AtNotify | AtFirstSelect => observed l = []
  | AtFire => ∃ e, observed l = [first_record e]
  | AtLoop => ∃ e es, observed l = first_record e :: (repeated_record <$> es)
  end.
Proof.
  intros (Hh & Hi & Ht & Hn). destruct l as [h p ic n fx].
  unfold observed, trace_ok in *; simpl in *.
  destruct p; simpl in *.
  - by subst.
  - by subst.
  - destruct Ht as [e ->]. by exists e.
  - destruct Ht as (e & f & es & -> & Hf). exists e, es.
    change (Logged (first_record e) :: f :: ((Logged ∘ repeated_record) <$> es))
      with ([Logged (first_record e); f] ++ ((Logged ∘ repeated_record) <$> es)).
    rewrite observed_app_repeated. simpl.
    destruct h; simpl in Hf; [by subst f|]. by destruct Hf as [k ->].
Qed.

(** ** The signal set is never written *)

Lemma step_interruptSignals w a w' :
  step w a = Next w' → interruptSignals w' = interruptSignals w.
Proof.
  destruct a; simpl; intros Hs;
    repeat (match type of Hs with
            | context [match ?x with _ => _ end] => destruct x
            end; try done);
    by injection Hs as <-.
Qed.

Lemma run_interruptSignals sched : ∀ w w',
  run w sched = Next w' → interruptSignals w' = interruptSignals w.
Proof.
  induction sched as [|a rest IH]; simpl; intros w w'.
  - by intros [= <-].
  - destruct (step w a) as [w1| |] eqn:Hs; try done.
    intros Hr. rewrite (IH _ _ Hr). by eapply step_interruptSignals.
Qed.

(** ** Reachable listeners *)

Lemma reachable_listener sigs sched w g l :
  run (init_world sigs) sched = Next w → goroutines w !! g = Some l →
  world_inv w ∧ listener_inv sigs l.
Proof.
  intros Hr Hl.
  pose proof (run_inv _ _ _ (init_world_inv sigs) Hr) as Hw.
  split; [done|].
  pose proof (run_interruptSignals _ _ _ Hr) as Hs. simpl in Hs. rewrite <- Hs.
  destruct Hw as [_ Hgs]. by eapply Forall_lookup_1.
Qed.

Lemma poll_spec sigs w g l :
  goroutines w !! g = Some l → listener_inv sigs l →
  is_Some (handle l) → poll w g = Some (bool_decide (pc l = AtLoop)).
Proof.
  intros Hl Hinv [c Hc]. unfold poll. rewrite Hl; simpl. rewrite Hc; simpl.
  by rewrite (InterruptRequested_inv _ _ _ Hinv Hc).
Qed.

(** Once the handle is closed it stays closed, whatever happens next, and
    a receive on it returns at once and leaves it as it is. *)
Lemma closed_forever sigs sched w g l c sched' w' :
  run (init_world sigs) sched = Next w →
  goroutines w !! g = Some l → handle l = Some c → closed c = true →
  run w sched' = Next w' →
  ∃ l', goroutines w' !! g = Some l' ∧ handle l' = Some c ∧ pc l' = AtLoop ∧
        chanrecv c = Some (c, None) ∧ poll w' g = Some true ∧
        step w' (Await g) = Next w'.
Proof.
  intros Hr Hl Hc Hcl Hr'.
  destruct (reachable_listener _ _ _ _ _ Hr Hl) as [Hw Hinv].
  pose proof Hinv as (Hh & _).
  pose proof (Hh c Hc) as Hceq.
  assert (pc l = AtLoop) as Hp.
  { rewrite Hceq in Hcl; simpl in Hcl. by apply bool_decide_eq_true_1 in Hcl. }
  destruct (run_loop _ _ _ _ _ Hw Hr' Hl Hp) as (l' & es & Hl' & Hp' & Hh' & He').
  assert (run (init_world sigs) (sched ++ sched') = Next w') as Hr2.
  { by rewrite run_app, Hr. }
  destruct (reachable_listener _ _ _ _ _ Hr2 Hl') as [Hw' Hinv'].
  assert (chanrecv c = Some (c, None)) as Hrc.
  { rewrite Hceq, Hp. by rewrite bool_decide_eq_true_2. }
  exists l'. split; [done|]. split; [congruence|]. split; [done|]. split; [done|].
  split.
  - rewrite (poll_spec sigs _ _ l') by (try done; rewrite Hh', Hc; by eexists).
    by rewrite bool_decide_eq_true_2.
  - simpl. rewrite Hl', Hh', Hc, Hrc.
    rewrite set_handle_same by congruence. rewrite list_insert_id by done.
    by destruct w'.
Qed.

(** ** The channel variant: [InterruptListener] *)


(** C2.  For the handle of a listener started by [InterruptListener],
    [InterruptRequested] returns the closed flag of the handle, that is
    true exactly when the listener has closed it: false while the listener
    has received no event, and true in every later state of every
    continuation once it has been true; the call is never blocked. *)
Theorem InterruptRequested_iff_fired sigs sched w g l c :
  run (init_world sigs) sched = Next w →
  goroutines w !! g = Some l → handle l = Some c →
  (InterruptRequested c).1 = closed c ∧
  ((InterruptRequested c).1 = true ↔ closes l = 1) ∧
  (observed l = [] → (InterruptRequested c).1 = false) ∧
  (∃ w', step w (CallInterruptRequested g) = Next w') ∧
  ((InterruptRequested c).1 = true → ∀ sched' w', run w sched' = Next w' →
     poll w' g = Some true ∧ ∃ w'', step w' (CallInterruptRequested g) = Next w'').
Proof.
  intros Hr Hl Hc.
  destruct (reachable_listener _ _ _ _ _ Hr Hl) as [Hw Hinv].
  pose proof (closes_spec _ _ Hinv) as Hcs.
  pose proof (observed_spec _ _ Hinv) as Hobs.
  pose proof (InterruptRequested_inv _ _ _ Hinv Hc) as Hir.
  pose proof Hinv as (Hh & _).
  assert (closed c = bool_decide (pc l = AtLoop)) as Hcl by (by rewrite (Hh c Hc)).
  rewrite Hir; simpl. split_and!.
  - done.
  - rewrite Hcs, bool_decide_eq_true. split.
    + intros Hp. by rewrite decide_True by (split; [done|rewrite Hc; by eexists]).
    + case_decide as Hd; [by destruct Hd|done].
  - intros Ho. apply bool_decide_eq_false_2. intros Hp.
    rewrite Hp in Hobs. destruct Hobs as (e & es & He). by rewrite He in Ho.
  - eexists. simpl. by rewrite Hl, Hc.
  - intros Hp sched' w' Hr'. rewrite <- Hcl in Hp.
    destruct (closed_forever _ _ _ _ _ _ _ _ Hr Hl Hc Hp Hr')
      as (l' & Hl' & Hh' & _ & _ & Hpoll & _).
    split; [done|]. eexists. simpl. by rewrite Hl', Hh'.
Qed.

(** C10.  For the handle of a listener started by [InterruptListener],
    [InterruptRequested] leaves the handle and the whole process state as
    they are, however often it is called; calling it again on the handle it
    leaves gives the same result; and once it has returned true it returns
    true in every later state. *)
Theorem InterruptRequested_observation_only sigs sched w g l c :
  run (init_world sigs) sched = Next w →
  goroutines w !! g = Some l → handle l = Some c →
  (InterruptRequested c).2 = c ∧
  (∀ n, Nat.iter n (λ c', (InterruptRequested c').2) c = c) ∧
  InterruptRequested (InterruptRequested c).2 = InterruptRequested c ∧
  (∀ n, run w (replicate n (CallInterruptRequested g)) = Next w) ∧
  ((InterruptRequested c).1 = true → ∀ sched' w', run w sched' = Next w' →
     poll w' g = Some true).
Proof.
  intros Hr Hl Hc.
  destruct (reachable_listener _ _ _ _ _ Hr Hl) as [Hw Hinv].
  pose proof (InterruptRequested_inv _ _ _ Hinv Hc) as Hir.
  pose proof Hinv as (Hh & _).
  assert (closed c = bool_decide (pc l = AtLoop)) as Hcl by (by rewrite (Hh c Hc)).
  split_and!.
  - by rewrite Hir.
  - induction n as [|n IH]; simpl; [done|]. by rewrite IH, Hir.
  - by rewrite Hir.
  - induction n as [|n IH]; simpl; [done|].
    rewrite Hl, Hc, Hir; simpl.
    rewrite set_handle_same by done. rewrite list_insert_id by done.
    replace (set_goroutines w (goroutines w)) with w by (by destruct w).
    exact IH.
  - rewrite Hir; simpl. intros Hp sched' w' Hr'. rewrite <- Hcl in Hp.
    by destruct (closed_forever _ _ _ _ _ _ _ _ Hr Hl Hc Hp Hr')
      as (l' & _ & _ & _ & _ & Hpoll & _).
Qed.

(** ** Both variants: the loop *)

(** C4.  A listener of either variant that has reached its loop has
    notified exactly once (one close of its handle or one publish on the
    feed); in every continuation it is still in the loop, its handle is
    the same, it has closed and published as often as before, and all it
    has added to its effects are records with a "repeated" message; each
    event it receives there adds exactly one such record and leaves the
    feed as it is. *)
Theorem fired_listener_only_logs sigs sched w g l :
  run (init_world sigs) sched = Next w →
  goroutines w !! g = Some l → pc l = AtLoop →
  closes l + publishes l = 1 ∧
  ∀ sched' w', run w sched' = Next w' →
    ∃ l' es, goroutines w' !! g = Some l' ∧ pc l' = AtLoop ∧
      handle l' = handle l ∧
      effects l' = effects l ++ ((Logged ∘ repeated_record) <$> es) ∧
      closes l' = closes l ∧ publishes l' = publishes l ∧
      ∀ br w1, step w' (Run g br) = Next w1 →
        InterruptFeed w1 = InterruptFeed w' ∧
        ∃ l1 e, goroutines w1 !! g = Some l1 ∧ pc l1 = AtLoop ∧
                handle l1 = handle l ∧
                effects l1 = effects l' ++ [Logged (repeated_record e)].
Proof.
  intros Hr Hl Hp.
  destruct (reachable_listener _ _ _ _ _ Hr Hl) as [Hw Hinv].
  split.
  - rewrite (closes_spec _ _ Hinv), (publishes_spec _ _ Hinv).
    destruct (handle l) as [c|] eqn:Hc.
    + rewrite decide_True by (split; [done|by eexists]).
      by rewrite decide_False by (by intros [? ?]).
    + rewrite decide_False by (intros [_ [? ?]]; done).
      by rewrite decide_True.
  - intros sched' w' Hr'.
    destruct (run_loop _ _ _ _ _ Hw Hr' Hl Hp) as (l' & es & Hl' & Hp' & Hh' & He').
    exists l', es. split_and!; try done.
    + unfold closes. rewrite He', filter_app, filter_Closed_repeated.
      by rewrite app_nil_r.
    + unfold publishes. rewrite He', filter_app, filter_Sent_repeated.
      by rewrite app_nil_r.
    + intros br w1. simpl. rewrite Hl'.
      destruct (listener_step _ _ _ _ _) as [[[l1 req] feed]| |] eqn:Hls; try done.
      intros [= <-]. simpl.
      apply listener_step_loop in Hls as (Hp1 & Hh1 & -> & e & He1); [|done].
      split; [done|]. exists l1, e.
      rewrite list_lookup_insert_eq by (by eapply lookup_lt_Some).
      split_and!; try done. congruence.
Qed.

(** ** Sums over the goroutines *)

Lemma sum_list_with_insert {A} (f : A → nat) (ls : list A) g l l' :
  ls !! g = Some l →
  sum_list_with f (<[g := l']> ls) + f l = sum_list_with f ls + f l'.
Proof.
  revert g. induction ls as [|x ls IH]; intros [|g]; simpl; try done.
  - intros [= ->]. lia.
  - intros Hl. specialize (IH g Hl). lia.
Qed.

Lemma sum_list_with_le {A} (f h : A → nat) (ls : list A) :
  Forall (λ l, f l ≤ h l) ls → sum_list_with f ls ≤ sum_list_with h ls.
Proof. induction 1; simpl; lia. Qed.

Lemma sum_list_with_fmap_same {A} (f : A → nat) (k : A → A) (ls : list A) :
  (∀ l, f (k l) = f l) → sum_list_with f (k <$> ls) = sum_list_with f ls.
Proof. intros Hk. induction ls as [|x ls IH]; csimpl; [done|]. by rewrite Hk, IH. Qed.

Lemma sum_list_with_snoc {A} (f : A → nat) (ls : list A) x :
  sum_list_with f (ls ++ [x]) = sum_list_with f ls + f x.
Proof. rewrite sum_list_with_app. simpl. lia. Qed.

(** ** No raise is lost or received twice *)

Lemma requests_snoc fx r :
  length (filter (λ r, is_request r = true) (omap logged (fx ++ [Logged r]))) =
  length (filter (λ r, is_request r = true) (omap logged fx)) +
  (if is_request r then 1 else 0).
Proof.
  rewrite omap_app, filter_app, length_app. simpl.
  destruct (is_request r) eqn:Hr.
  - by rewrite filter_cons_True by done.
  - rewrite filter_cons_False by (by rewrite Hr). done.
Qed.

Lemma requests_snoc_other fx f :
  logged f = None → omap logged (fx ++ [f]) = omap logged fx.
Proof. intros Hf. rewrite omap_app. simpl. rewrite Hf. by rewrite app_nil_r. Qed.

Lemma is_request_signal sig :
  is_request (first_record (GotSignal sig)) = false ∧
  is_request (repeated_record (GotSignal sig)) = false.
Proof. by destruct sig. Qed.

Lemma listener_step_requests sigs req feed br l l' req' feed' :
  listener_inv sigs l → req_ok req →
  listener_step sigs req feed br l = Next (l', req', feed') →
  length (sendq req') + requests_received l' =
  length (sendq req) + requests_received l.
Proof.
  intros (Hh & Hi & Ht & Hn) Hreq.
  destruct l as [h p ic n fx]. unfold listener_step; simpl.
  unfold requests_received, observed; simpl.
  destruct p; simpl.
  - by intros [= <- <- <-].
  - destruct br.
    + destruct (chanrecv ic) as [[ic' [sig|]]|]; try done.
      intros [= <- <- <-]. simpl. rewrite requests_snoc.
      change (Warn "received signal" [("sig", Signal_String sig)])
        with (first_record (GotSignal sig)).
      rewrite (proj1 (is_request_signal sig)). lia.
    + rewrite (chanrecv_req req) by done.
      destruct (sendq req) as [|s ss]; [done|].
      intros [= <- <- <-]. simpl. rewrite requests_snoc. simpl. lia.
  - destruct h as [c|].
    + destruct (closechan c); [|done]. intros [= <- <- <-]. simpl.
      by rewrite requests_snoc_other.
    + simpl. intros [= <- <- <-]. simpl. by rewrite requests_snoc_other.
  - destruct br.
    + destruct (chanrecv ic) as [[ic' [sig|]]|]; try done.
      intros [= <- <- <-]. simpl. rewrite requests_snoc.
      change (Warn "received signal (repeated)" [("sig", Signal_String sig)])
        with (repeated_record (GotSignal sig)).
      rewrite (proj2 (is_request_signal sig)). lia.
    + rewrite (chanrecv_req req) by done.
      destruct (sendq req) as [|s ss]; [done|].
      intros [= <- <- <-]. simpl. rewrite requests_snoc. simpl. lia.
Qed.

Lemma step_requests w a w' :
  world_inv w → step w a = Next w' →
  pending w' + received w' = pending w + received w + (if is_raise a then 1 else 0).
Proof.
  intros Hw Hs. pose proof Hw as [Hreq Hgs]. unfold pending, received.
  destruct a; simpl in *.
  - injection Hs as <-. simpl. rewrite sum_list_with_snoc. simpl.
    unfold requests_received at 2. simpl. lia.
  - injection Hs as <-. simpl. rewrite sum_list_with_snoc. simpl.
    unfold requests_received at 2. simpl. lia.
  - destruct (goroutines w !! g) as [l|] eqn:Hl; [|done].
    destruct (listener_step _ _ _ _ _) as [[[l' req] feed]| |] eqn:Hls; try done.
    injection Hs as <-. simpl.
    apply listener_step_requests in Hls; [|by eapply Forall_lookup_1|done].
    pose proof (sum_list_with_insert requests_received _ _ _ l' Hl). lia.
  - injection Hs as <-. simpl.
    rewrite sum_list_with_fmap_same; [lia|].
    intros l. unfold deliver. by case_decide.
  - destruct Hreq as (Hc & Hb & Hcl). unfold sendShutdownRequest, chansend in Hs.
    rewrite Hcl, Hc, Hb in Hs. simpl in Hs. injection Hs as <-. simpl.
    rewrite length_app. simpl. lia.
  - injection Hs as <-. simpl. lia.
  - apply (step_poll_id w g w' Hw) in Hs as ->. lia.
  - apply (step_await_id w g w' Hw) in Hs as ->. lia.
Qed.

Lemma run_requests sched : ∀ w w',
  world_inv w → run w sched = Next w' →
  pending w' + received w' = pending w + received w + raises sched.
Proof.
  induction sched as [|a rest IH]; simpl; intros w w' Hw.
  - intros [= <-]. unfold raises. simpl. lia.
  - destruct (step w a) as [w1| |] eqn:Hs; try done.
    intros Hr. rewrite (IH _ _ (step_inv _ _ _ Hw Hs) Hr).
    rewrite (step_requests _ _ _ Hw Hs). unfold raises.
    destruct (is_raise a) eqn:Ha.
    + rewrite filter_cons_True by done. simpl. lia.
    + rewrite filter_cons_False by (by rewrite Ha). lia.
Qed.

Lemma step_raise w :
  world_inv w →
  ∃ w1, step w RequestShutdown = Next w1 ∧ pending w1 = S (pending w) ∧
        goroutines w1 = goroutines w ∧
        sendq (shutdownRequestChannel w1) = sendq (shutdownRequestChannel w) ++ [()].
Proof.
  intros [(Hc & Hb & Hcl) _]. simpl. unfold sendShutdownRequest, chansend.
  rewrite Hcl, Hc, Hb. simpl. eexists. split; [done|]. unfold pending. simpl.
  rewrite length_app. simpl. split; [lia|done].
Qed.


Lemma run_reachable sigs sched w :
  run (init_world sigs) sched = Next w → world_inv w.
Proof. apply run_inv, init_world_inv. Qed.

(** ** Delivery of OS signals *)

Lemma trysend_buf (ic : Chan Signal) sig :
  cap ic = 1 → closed ic = false →
  buf (trysend ic sig) = match buf ic with [] => [sig] | b => b end.
Proof.
  destruct ic as [n b q cl]; simpl; intros -> ->.
  unfold trysend. cbn [closed cap buf].
  destruct (decide (length b < 1)) as [Hlt|Hge]; destruct b; simpl in *; try done; lia.
Qed.

Lemma step_deliver sigs w sig g l :
  world_inv w → goroutines w !! g = Some l → listener_inv sigs l →
  pc l ≠ AtNotify → sig ∈ sigs →
  ∃ w' l', step w (Deliver sig) = Next w' ∧ goroutines w' !! g = Some l' ∧
    buf (interruptChannel l') =
      match buf (interruptChannel l) with [] => [sig] | b => b end ∧
    pc l' = pc l ∧ handle l' = handle l ∧ effects l' = effects l.
Proof.
  intros Hw Hl (Hh & Hi & Ht & Hn) Hp Hsig.
  eexists _, (deliver sig l). simpl. split; [done|]. simpl.
  rewrite list_lookup_fmap, Hl. split; [done|].
  unfold deliver. rewrite decide_True by (split; [done|right; by rewrite Hn]).
  simpl. split_and!; try done.
  unfold ichan_ok in Hi. destruct (pc l); try done;
    destruct Hi as (Hc & Hb & Hq & Hcl); by apply trysend_buf.
Qed.

Lemma step_run_other w g br w' g' :
  step w (Run g br) = Next w' → g' ≠ g → goroutines w' !! g' = goroutines w !! g'.
Proof.
  simpl. destruct (goroutines w !! g) as [l|]; [|done].
  destruct (listener_step _ _ _ _ _) as [[[l' req] feed]| |]; try done.
  intros [= <-] Hne. simpl. by apply list_lookup_insert_ne.
Qed.

Lemma listener_step_req sigs req feed br l l' req' feed' :
  req_ok req → listener_step sigs req feed br l = Next (l', req', feed') →
  req' = req ∨ length (sendq req') + 1 = length (sendq req).
Proof.
  intros Hreq. destruct l as [h p ic n fx]. unfold listener_step; simpl.
  destruct p; simpl.
  - intros [= <- <- <-]. by left.
  - destruct br.
    + destruct (chanrecv ic) as [[ic' [sig|]]|]; try done.
      intros [= <- <- <-]. by left.
    + rewrite (chanrecv_req req) by done.
      destruct (sendq req) as [|s ss]; [done|].
      intros [= <- <- <-]. right. simpl. lia.
  - destruct h as [c|].
    + destruct (closechan c); [|done]. intros [= <- <- <-]. by left.
    + simpl. intros [= <- <- <-]. by left.
  - destruct br.
    + destruct (chanrecv ic) as [[ic' [sig|]]|]; try done.
      intros [= <- <- <-]. by left.
    + rewrite (chanrecv_req req) by done.
      destruct (sendq req) as [|s ss]; [done|].
      intros [= <- <- <-]. right. simpl. lia.
Qed.

(** ** Two listeners side by side *)

(** C6, as the code has it.  Every listener that has subscribed is
    registered for the same signal set, the value of [interruptSignals].
    An OS signal of the set is delivered to every listener that has
    subscribed, each in its own channel, where it is kept when the slot is
    free: one delivery reaches all of them.  A statement of one listener
    leaves every other listener as it is.  The shutdown requests come from
    one shared channel: every raise is received by at most one listener,
    the requests received by all listeners and the pending ones adding up
    to the raises. *)
Theorem signals_fan_out_requests_do_not sigs sched w :
  run (init_world sigs) sched = Next w →
  (∀ g l, goroutines w !! g = Some l → pc l ≠ AtNotify → notify l = sigs) ∧
  (∀ sig, sig ∈ sigs → ∃ w', step w (Deliver sig) = Next w' ∧
     ∀ g l, goroutines w !! g = Some l → pc l ≠ AtNotify →
       ∃ l', goroutines w' !! g = Some l' ∧
         buf (interruptChannel l') =
           match buf (interruptChannel l) with [] => [sig] | b => b end) ∧
  (∀ g br w', step w (Run g br) = Next w' →
     shutdownRequestChannel w' = shutdownRequestChannel w ∨
     (pending w' + 1 = pending w ∧ received w' = received w + 1)) ∧
  (∀ g br w', step w (Run g br) = Next w' →
     ∀ g', g' ≠ g → goroutines w' !! g' = goroutines w !! g') ∧
  pending w + received w = raises sched.
Proof.
  intros Hr. pose proof (run_reachable _ _ _ Hr) as Hw.
  split_and!.
  - intros g l Hl Hp.
    destruct (reachable_listener _ _ _ _ _ Hr Hl) as [_ (_ & _ & _ & Hn)]. by apply Hn.
  - intros sig Hsig. eexists. split; [done|].
    intros g l Hl Hp.
    destruct (reachable_listener _ _ _ _ _ Hr Hl) as [_ Hinv].
    destruct (step_deliver _ _ _ _ _ Hw Hl Hinv Hp Hsig)
      as (w' & l' & Hs & Hl' & Hb & _).
    simpl in Hs. injection Hs as <-. by exists l'.
  - intros g br w' Hs.
    pose proof (step_requests _ _ _ Hw Hs) as Hcons. simpl in Hcons.
    pose proof Hw as [Hreq _]. simpl in Hs.
    destruct (goroutines w !! g) as [l|] eqn:Hl; [|done].
    destruct (listener_step _ _ _ _ _) as [[[l' req] feed]| |] eqn:Hls; try done.
    injection Hs as <-.
    destruct (listener_step_req _ _ _ _ _ _ _ _ Hreq Hls) as [->|Hlen].
    + by left.
    + right. unfold pending in *. simpl in *. lia.
  - intros g br w' Hs g' Hne. by eapply step_run_other.
  - pose proof (run_requests _ _ _ (init_world_inv sigs) Hr) as H.
    unfold pending at 2, received at 2 in H. simpl in H. lia.
Qed.

(** C6 as stated fails: with both listeners blocked in their first select
    and one shutdown request raised, the listener that receives it fires
    and the other has received nothing; nothing is pending for it, and both
    cases of its select are disabled. *)
Lemma one_request_reaches_one_listener :
  Res_map (λ w, (pc <$> goroutines w, observed <$> goroutines w, pending w))
    (run init [CallInterruptListener; CallStartInterrupteListener;
               Run 0 CaseSignal; Run 1 CaseSignal; RequestShutdown;
               Run 0 CaseRequest]) =
  Next ([AtFire; AtFirstSelect], [[Warn "received shutdown request" []]; []], 0) ∧
  run init [CallInterruptListener; CallStartInterrupteListener;
            Run 0 CaseSignal; Run 1 CaseSignal; RequestShutdown;
            Run 0 CaseRequest; Run 1 CaseRequest] = Disabled ∧
  run init [CallInterruptListener; CallStartInterrupteListener;
            Run 0 CaseSignal; Run 1 CaseSignal; RequestShutdown;
            Run 0 CaseRequest; Run 1 CaseSignal] = Disabled.
Proof. split_and!; reflexivity. Qed.

(** ** The signal set *)

Lemma listener_step_subscribed sigs req feed br l l' req' feed' :
  listener_step sigs req feed br l = Next (l', req', feed') → pc l' ≠ AtNotify.
Proof.
  destruct l as [h p ic n fx]. unfold listener_step; simpl.
  destruct p, br; simpl;
    repeat (match goal with
            | |- context [match ?x with _ => _ end] => destruct x
            end; try done);
    by intros [= <- _ _].
Qed.

(** A listener never returns to the program point before [signal.Notify]. *)
Lemma step_subscribed w a w' g l l' :
  step w a = Next w' → goroutines w !! g = Some l →
  goroutines w' !! g = Some l' → pc l ≠ AtNotify → pc l' ≠ AtNotify.
Proof.
  intros Hs Hl. pose proof (lookup_lt_Some _ _ _ Hl) as Hlt.
  destruct a; simpl in Hs.
  - injection Hs as <-. simpl. rewrite lookup_app_l by done. congruence.
  - injection Hs as <-. simpl. rewrite lookup_app_l by done. congruence.
  - destruct (goroutines w !! g0) as [l0|] eqn:Hl0; [|done].
    destruct (listener_step _ _ _ _ _) as [[[l1 req] feed]| |] eqn:Hls; try done.
    injection Hs as <-. simpl.
    destruct (decide (g0 = g)) as [->|Hne].
    + rewrite list_lookup_insert_eq by done. intros [= <-] _.
      by eapply listener_step_subscribed.
    + rewrite list_lookup_insert_ne by done. congruence.
  - injection Hs as <-. simpl. rewrite list_lookup_fmap, Hl. simpl.
    intros [= <-]. unfold deliver. by case_decide.
  - destruct (sendShutdownRequest _); [|done]. injection Hs as <-. simpl. congruence.
  - injection Hs as <-. simpl. congruence.
  - destruct (goroutines w !! g0) as [l0|] eqn:Hl0; [|done].
    destruct (handle l0); [|done]. injection Hs as <-. simpl.
    destruct (decide (g0 = g)) as [->|Hne].
    + rewrite list_lookup_insert_eq by done. intros [= <-]. simpl. congruence.
    + rewrite list_lookup_insert_ne by done. congruence.
  - destruct (goroutines w !! g0) as [l0|] eqn:Hl0; [|done].
    destruct (handle l0); [|done]. destruct (chanrecv _) as [[c' v]|]; [|done].
    injection Hs as <-. simpl.
    destruct (decide (g0 = g)) as [->|Hne].
    + rewrite list_lookup_insert_eq by done. intros [= <-]. simpl. congruence.
    + rewrite list_lookup_insert_ne by done. congruence.
Qed.

(** C8.  [interruptSignals] is the single signal [os.Interrupt] unless the
    platform has replaced it before the process starts; whatever the
    process then does, the variable keeps its value, no action writes it,
    and every listener that has subscribed is registered for exactly that
    set, a listener that has not yet subscribed for nothing. *)
Theorem interruptSignals_is_fixed sigs sched w :
  run (init_world sigs) sched = Next w →
  interruptSignals init = [os_Interrupt] ∧
  interruptSignals w = sigs ∧
  (∀ a w', step w a = Next w' → interruptSignals w' = sigs) ∧
  (∀ g l, goroutines w !! g = Some l →
     notify l = if decide (pc l = AtNotify) then [] else sigs) ∧
  (∀ a w' g l l', step w a = Next w' → goroutines w !! g = Some l →
     goroutines w' !! g = Some l' → pc l ≠ AtNotify → notify l' = notify l).
Proof.
  intros Hr.
  pose proof (run_interruptSignals _ _ _ Hr) as Hs. simpl in Hs.
  assert (∀ s w' g l, run (init_world sigs) s = Next w' →
            goroutines w' !! g = Some l →
            notify l = if decide (pc l = AtNotify) then [] else sigs) as Hnot.
  { intros s w' g l Hr' Hl.
    destruct (reachable_listener _ _ _ _ _ Hr' Hl) as [_ (_ & Hi & _ & Hn)].
    case_decide as Hp.
    - unfold ichan_ok in Hi. rewrite Hp in Hi. by destruct Hi.
    - by apply Hn. }
  split_and!; try done.
  - intros a w' Hs'. by rewrite (step_interruptSignals _ _ _ Hs').
  - intros g l Hl. by eapply Hnot.
  - intros a w' g l l' Hs' Hl Hl' Hp.
    assert (run (init_world sigs) (sched ++ [a]) = Next w') as Hr2.
    { rewrite run_app, Hr. simpl. by rewrite Hs'. }
    rewrite (Hnot _ _ _ _ Hr Hl), (Hnot _ _ _ _ Hr2 Hl').
    rewrite (decide_False (P := pc l = AtNotify)) by done.
    case_decide as Hp'; [|done]. by destruct (step_subscribed _ _ _ _ _ _ Hs' Hl Hl' Hp).
Qed.

(** ** The one-slot signal channel of a listener *)

(** Signals delivered in a row, with no receive in between: the slot keeps
    the oldest one and the others are dropped. *)
Lemma run_deliver dl : ∀ w g l,
  world_inv w → goroutines w !! g = Some l → pc l ≠ AtNotify →
  Forall (λ sig, sig ∈ interruptSignals w) dl →
  ∃ w' l', run w (Deliver <$> dl) = Next w' ∧ goroutines w' !! g = Some l' ∧
    buf (interruptChannel l') = take 1 (buf (interruptChannel l) ++ dl) ∧
    pc l' = pc l ∧ handle l' = handle l ∧ effects l' = effects l.
Proof.
  induction dl as [|sig dl IH]; intros w g l Hw Hl Hp Hdl.
  - exists w, l. simpl. split_and!; try done.
    rewrite app_nil_r.
    pose proof (world_listener_inv _ _ _ Hw Hl) as (_ & Hi & _).
    unfold ichan_ok in Hi.
    destruct (pc l); try done; destruct Hi as (_ & Hb & _);
      destruct (buf (interruptChannel l)) as [|x [|y b]]; simpl in *; try done; lia.
  - apply Forall_cons in Hdl as [Hsig Hdl].
    destruct (step_deliver _ _ _ _ _ Hw Hl (world_listener_inv _ _ _ Hw Hl) Hp Hsig)
      as (w1 & l1 & Hs1 & Hl1 & Hb1 & Hp1 & Hh1 & He1).
    pose proof (step_inv _ _ _ Hw Hs1) as Hw1.
    rewrite <- (step_interruptSignals _ _ _ Hs1) in Hdl.
    destruct (IH w1 g l1 Hw1 Hl1 ltac:(congruence) Hdl)
      as (w' & l' & Hr & Hl' & Hb' & Hp' & Hh' & He').
    exists w', l'.
    change (run w (Deliver <$> sig :: dl))
      with (match step w (Deliver sig) with
            | Next w2 => run w2 (Deliver <$> dl)
            | Disabled => Disabled
            | Panic => Panic
            end).
    rewrite Hs1. split_and!; try congruence.
    rewrite Hb', Hb1. by destruct (buf (interruptChannel l)).
Qed.

(** ** The feed variant: [StartInterrupteListener] *)

Lemma publishes_snoc fx f :
  length (filter (λ f, is_Sent f = true) (fx ++ [f])) =
  length (filter (λ f, is_Sent f = true) fx) + (if is_Sent f then 1 else 0).
Proof.
  rewrite filter_app, length_app. destruct (is_Sent f) eqn:Hf.
  - by rewrite filter_cons_True by done.
  - rewrite filter_cons_False by (by rewrite Hf). done.
Qed.

Lemma listener_step_publishes sigs req feed br l l' req' feed' :
  listener_step sigs req feed br l = Next (l', req', feed') →
  feed_variant l' = feed_variant l ∧
  ((publishes l' = publishes l ∧ feed' = feed) ∨
   (publishes l' = S (publishes l) ∧ feed' = MkFeed (S <$> subscribers feed))).
Proof.
  destruct l as [h p ic n fx]. unfold listener_step, publishes, feed_variant; simpl.
  destruct p; simpl.
  - intros [= <- <- <-]. simpl. split; [done|]. by left.
  - destruct br.
    + destruct (chanrecv ic) as [[ic' [sig|]]|]; try done.
      intros [= <- <- <-]. simpl. rewrite publishes_snoc. simpl.
      split; [done|]. left. split; [lia|done].
    + destruct (chanrecv req) as [[r v]|]; try done.
      intros [= <- <- <-]. simpl. rewrite publishes_snoc. simpl.
      split; [done|]. left. split; [lia|done].
  - destruct h as [c|].
    + destruct (closechan c); [|done]. intros [= <- <- <-]. simpl.
      rewrite publishes_snoc. simpl. split; [done|]. left. split; [lia|done].
    + simpl. intros [= <- <- <-]. simpl. rewrite publishes_snoc. simpl.
      split; [done|]. right. split; [lia|done].
  - destruct br.
    + destruct (chanrecv ic) as [[ic' [sig|]]|]; try done.
      intros [= <- <- <-]. simpl. rewrite publishes_snoc. simpl.
      split; [done|]. left. split; [lia|done].
    + destruct (chanrecv req) as [[r v]|]; try done.
      intros [= <- <- <-]. simpl. rewrite publishes_snoc. simpl.
      split; [done|]. left. split; [lia|done].
Qed.

(** One action either publishes once, delivering once to every registered
    subscriber, or publishes nothing and at most registers a subscriber
    that has received nothing. *)
Lemma step_feed w a w' :
  world_inv w → step w a = Next w' →
  feed_listeners w' = feed_listeners w + (if is_start_feed a then 1 else 0) ∧
  ((total_publishes w' = total_publishes w ∧
    (subscribers (InterruptFeed w') = subscribers (InterruptFeed w) ∨
     subscribers (InterruptFeed w') = subscribers (InterruptFeed w) ++ [0])) ∨
   (total_publishes w' = S (total_publishes w) ∧
    subscribers (InterruptFeed w') = S <$> subscribers (InterruptFeed w))).
Proof.
  intros Hw Hs. unfold feed_listeners, total_publishes.
  destruct a; simpl in Hs.
  - injection Hs as <-. simpl. rewrite !sum_list_with_snoc. simpl.
    split; [done|]. left. unfold publishes at 2. simpl. split; [lia|by left].
  - injection Hs as <-. simpl. rewrite !sum_list_with_snoc. simpl.
    split; [done|]. left. unfold publishes at 2. simpl. split; [lia|by left].
  - destruct (goroutines w !! g) as [l|] eqn:Hl; [|done].
    destruct (listener_step _ _ _ _ _) as [[[l' req] feed]| |] eqn:Hls; try done.
    injection Hs as <-. simpl.
    apply listener_step_publishes in Hls as [Hv Hp].
    pose proof (sum_list_with_insert publishes _ _ _ l' Hl).
    pose proof (sum_list_with_insert feed_variant _ _ _ l' Hl).
    split; [lia|].
    destruct Hp as [[Hp ->]|[Hp ->]]; [left|right]; (split; [lia|]); [by left|done].
  - injection Hs as <-. simpl.
    rewrite !sum_list_with_fmap_same; [split; [lia|]; left; split; [lia|by left]| |].
    + intros l. unfold deliver. by case_decide.
    + intros l. unfold deliver. by case_decide.
  - destruct (sendShutdownRequest _); [|done]. injection Hs as <-. simpl.
    split; [lia|]. left. split; [lia|by left].
  - injection Hs as <-. simpl. split; [lia|]. left. split; [lia|by right].
  - apply (step_poll_id w g w' Hw) in Hs as ->.
    split; [simpl; lia|]. left. split; [lia|by left].
  - apply (step_await_id w g w' Hw) in Hs as ->.
    split; [simpl; lia|]. left. split; [lia|by left].
Qed.

Lemma run_feed sched : ∀ w w',
  world_inv w → run w sched = Next w' →
  feed_listeners w' = feed_listeners w + feed_starts sched ∧
  total_publishes w ≤ total_publishes w' ∧
  (∀ k n, deliveries w k = Some n →
     deliveries w' k = Some (n + (total_publishes w' - total_publishes w))) ∧
  (∀ k n', deliveries w k = None → deliveries w' k = Some n' →
     n' ≤ total_publishes w' - total_publishes w).
Proof.
  unfold deliveries, feed_starts.
  induction sched as [|a rest IH]; simpl; intros w w' Hw.
  - intros [= <-]. split_and!; try lia.
    + intros k n ->. f_equal. lia.
    + intros k n' ->. done.
  - destruct (step w a) as [w1| |] eqn:Hs; try done.
    intros Hr.
    destruct (IH _ _ (step_inv _ _ _ Hw Hs) Hr) as (Hfl & Hle & Hold & Hnew).
    destruct (step_feed _ _ _ Hw Hs) as [Hfl1 Hstep].
    split_and!.
    + rewrite Hfl, Hfl1. destruct (is_start_feed a) eqn:Ha.
      * rewrite filter_cons_True by done. simpl. lia.
      * rewrite filter_cons_False by (by rewrite Ha). lia.
    + destruct Hstep as [[Htp _]|[Htp _]]; lia.
    + intros k n Hk.
      destruct Hstep as [[Htp [Hsub|Hsub]]|[Htp Hsub]].
      * rewrite (Hold k n) by (by rewrite Hsub). f_equal. lia.
      * rewrite (Hold k n) by (rewrite Hsub; by apply lookup_app_l_Some).
        f_equal. lia.
      * rewrite (Hold k (S n)) by (by rewrite Hsub, list_lookup_fmap, Hk).
        f_equal. lia.
    + intros k n' Hk Hk'.
      destruct Hstep as [[Htp [Hsub|Hsub]]|[Htp Hsub]].
      * rewrite <- Hsub in Hk. specialize (Hnew k n' Hk Hk'). lia.
      * destruct (subscribers (InterruptFeed w1) !! k) as [n1|] eqn:Hk1.
        -- pose proof Hk1 as Hk1'. rewrite Hsub in Hk1.
           apply lookup_app_Some in Hk1 as [Hk1|[_ Hk1]]; [congruence|].
           apply list_lookup_singleton_Some in Hk1 as [_ <-].
           rewrite (Hold k 0 Hk1') in Hk'. injection Hk' as <-. lia.
        -- specialize (Hnew k n' Hk1 Hk'). lia.
      * assert (subscribers (InterruptFeed w1) !! k = None) as Hk1.
        { by rewrite Hsub, list_lookup_fmap, Hk. }
        specialize (Hnew k n' Hk1 Hk'). lia.
Qed.

Lemma total_publishes_le_listeners w :
  world_inv w → total_publishes w ≤ feed_listeners w.
Proof.
  intros [_ Hgs]. apply sum_list_with_le.
  eapply Forall_impl; [exact Hgs|]. intros l Hinv. simpl.
  rewrite (publishes_spec _ _ Hinv). unfold feed_variant.
  case_decide as Hd; [|lia]. destruct Hd as [_ ->]. lia.
Qed.

Lemma run_feed_starts sigs sched w :
  run (init_world sigs) sched = Next w → total_publishes w ≤ feed_starts sched.
Proof.
  intros Hr. pose proof (run_reachable _ _ _ Hr) as Hw.
  pose proof (total_publishes_le_listeners _ Hw).
  destruct (run_feed _ _ _ (init_world_inv sigs) Hr) as (Hfl & _).
  unfold feed_listeners at 2 in Hfl. simpl in Hfl. lia.
Qed.

(** C3, as the code has it.  A listener started by
    [StartInterrupteListener] has published nothing while it has received
    no event; its statement after the receipt of its first event is the
    [Send], which is enabled and delivers once to every subscriber
    registered at that moment; it has published before it receives a second
    event, and it publishes at most once.  The feed is published to at most
    once per call of [StartInterrupteListener].  Over any continuation a
    subscriber registered at its start receives exactly one delivery per
    publish made during it, and a subscriber registered during it receives
    at most that many: nothing is replayed for a publish made before the
    registration.  With one call of [StartInterrupteListener] the feed is
    published to at most once, and a subscriber registered after that
    publish receives nothing. *)
Theorem feed_publishes_once_per_listener sigs sched w :
  run (init_world sigs) sched = Next w →
  (∀ g l, goroutines w !! g = Some l → handle l = None →
     (observed l = [] → publishes l = 0) ∧
     (length (observed l) = 1 → publishes l = 0 →
        ∀ br, ∃ w' l', step w (Run g br) = Next w' ∧ goroutines w' !! g = Some l' ∧
          publishes l' = 1 ∧
          subscribers (InterruptFeed w') = S <$> subscribers (InterruptFeed w)) ∧
     (2 ≤ length (observed l) → publishes l = 1) ∧
     publishes l ≤ 1 ∧
     (publishes l = 1 →
        ∃ e n es, effects l = Logged (first_record e) :: Sent n ::
                              ((Logged ∘ repeated_record) <$> es))) ∧
  total_publishes w ≤ feed_starts sched ∧
  (∀ sched' w', run w sched' = Next w' →
     total_publishes w ≤ total_publishes w' ∧
     total_publishes w' ≤ feed_starts (sched ++ sched') ∧
     (∀ k n, deliveries w k = Some n →
        deliveries w' k = Some (n + (total_publishes w' - total_publishes w))) ∧
     (∀ k n', deliveries w k = None → deliveries w' k = Some n' →
        n' ≤ total_publishes w' - total_publishes w) ∧
     (feed_starts (sched ++ sched') ≤ 1 → total_publishes w = 1 →
        ∀ k n', deliveries w k = None → deliveries w' k = Some n' → n' = 0)).
Proof.
  intros Hr. pose proof (run_reachable _ _ _ Hr) as Hw.
  split_and!.
  - intros g l Hl Hh.
    destruct (reachable_listener _ _ _ _ _ Hr Hl) as [_ Hinv].
    pose proof (publishes_spec _ _ Hinv) as Hps.
    pose proof (observed_spec _ _ Hinv) as Hobs.
    pose proof Hinv as (_ & _ & Ht & _).
    split_and!.
    + intros Ho. rewrite Hps. case_decide as Hd; [|done]. destruct Hd as [Hp _].
      rewrite Hp in Hobs. destruct Hobs as (e & es & He). by rewrite He in Ho.
    + intros Ho Hz br.
      assert (pc l = AtFire) as Hp.
      { destruct (pc l) eqn:Hp; try (by rewrite Hobs in Ho); [done|].
        rewrite Hps in Hz. by rewrite decide_True in Hz. }
      destruct l as [h p ic n fx]; simpl in *. subst h p.
      eexists _, _. rewrite Hl. unfold listener_step; simpl.
      split; [done|]. simpl.
      rewrite list_lookup_insert_eq by (by eapply lookup_lt_Some).
      split; [done|]. split; [|done].
      unfold publishes in *. simpl in *. rewrite publishes_snoc. simpl. lia.
    + intros Ho. rewrite Hps.
      destruct (pc l) eqn:Hp; try (rewrite Hobs in Ho; simpl in Ho; lia).
      * destruct Hobs as [e He]. rewrite He in Ho. simpl in Ho. lia.
      * by rewrite decide_True.
    + rewrite Hps. case_decide; lia.
    + rewrite Hps. case_decide as Hd; [|done]. destruct Hd as [Hp _]. intros _.
      unfold trace_ok in Ht. rewrite Hp in Ht.
      destruct Ht as (e & f & es & He & Hf). rewrite Hh in Hf.
      destruct Hf as [n ->]. by exists e, n, es.
  - by eapply run_feed_starts.
  - intros sched' w' Hr'.
    destruct (run_feed _ _ _ Hw Hr') as (_ & Hle & Hold & Hnew).
    assert (run (init_world sigs) (sched ++ sched') = Next w') as Hr2.
    { by rewrite run_app, Hr. }
    pose proof (run_feed_starts _ _ _ Hr2) as Hst.
    split_and!; try done.
    intros Hone Htp k n' Hk Hk'. specialize (Hnew k n' Hk Hk'). lia.
Qed.

(** C3 as stated fails: with two calls of [StartInterrupteListener], one
    subscriber and one interrupt signal, both listeners publish, so the
    feed is published to twice and the subscriber receives two
    deliveries. *)
Lemma two_listeners_publish_twice :
  Res_map (λ w, (subscribers (InterruptFeed w), total_publishes w,
                 publishes <$> goroutines w))
    (run init [CallStartInterrupteListener; CallStartInterrupteListener;
               Run 0 CaseSignal; Run 1 CaseSignal; Subscribe; Deliver SIGINT;
               Run 0 CaseSignal; Run 0 CaseSignal;
               Run 1 CaseSignal; Run 1 CaseSignal]) =
  Next ([2], 2, [1; 1]).
Proof. reflexivity. Qed.

(** ** The theorems at the example runs *)


Lemma InterruptRequested_iff_fired_witness :
  run (init_world [os_Interrupt]) sched_fired = Next world_fired ∧
  goroutines world_fired !! 0 = Some listener_fired ∧
  handle listener_fired = Some handle_fired ∧
  ((InterruptRequested handle_fired).1 = closed handle_fired ∧
  ((InterruptRequested handle_fired).1 = true ↔ closes listener_fired = 1) ∧
  (observed listener_fired = [] → (InterruptRequested handle_fired).1 = false) ∧
  (∃ w', step world_fired (CallInterruptRequested 0) = Next w') ∧
  ((InterruptRequested handle_fired).1 = true → ∀ sched' w', run world_fired sched' = Next w' →
     poll w' 0 = Some true ∧ ∃ w'', step w' (CallInterruptRequested 0) = Next w'')).
Proof.
  split; [reflexivity|].
  split; [reflexivity|].
  split; [reflexivity|].
  exact (InterruptRequested_iff_fired [os_Interrupt] sched_fired world_fired 0 listener_fired handle_fired eq_refl eq_refl eq_refl).
Defined.

Lemma InterruptRequested_observation_only_witness :
  run (init_world [os_Interrupt]) sched_fired = Next world_fired ∧
  goroutines world_fired !! 0 = Some listener_fired ∧
  handle listener_fired = Some handle_fired ∧
  ((InterruptRequested handle_fired).2 = handle_fired ∧
  (∀ n, Nat.iter n (λ c', (InterruptRequested c').2) handle_fired = handle_fired) ∧
  InterruptRequested (InterruptRequested handle_fired).2 = InterruptRequested handle_fired ∧
  (∀ n, run world_fired (replicate n (CallInterruptRequested 0)) = Next world_fired) ∧
  ((InterruptRequested handle_fired).1 = true → ∀ sched' w', run world_fired sched' = Next w' →
     poll w' 0 = Some true)).
Proof.
  split; [reflexivity|].
  split; [reflexivity|].
  split; [reflexivity|].
  exact (InterruptRequested_observation_only [os_Interrupt] sched_fired world_fired 0 listener_fired handle_fired eq_refl eq_refl eq_refl).
Defined.

Lemma fired_listener_only_logs_witness :
  run (init_world [os_Interrupt]) sched_fired = Next world_fired ∧
  goroutines world_fired !! 0 = Some listener_fired ∧
  pc listener_fired = AtLoop ∧
  (closes listener_fired + publishes listener_fired = 1 ∧
  ∀ sched' w', run world_fired sched' = Next w' →
    ∃ l' es, goroutines w' !! 0 = Some l' ∧ pc l' = AtLoop ∧
      handle l' = handle listener_fired ∧
      effects l' = effects listener_fired ++ ((Logged ∘ repeated_record) <$> es) ∧
      closes l' = closes listener_fired ∧ publishes l' = publishes listener_fired ∧
      ∀ br w1, step w' (Run 0 br) = Next w1 →
        InterruptFeed w1 = InterruptFeed w' ∧
        ∃ l1 e, goroutines w1 !! 0 = Some l1 ∧ pc l1 = AtLoop ∧
                handle l1 = handle listener_fired ∧
                effects l1 = effects l' ++ [Logged (repeated_record e)]).
Proof.
  split; [reflexivity|].
  split; [reflexivity|].
  split; [reflexivity|].
  exact (fired_listener_only_logs [os_Interrupt] sched_fired world_fired 0 listener_fired eq_refl eq_refl eq_refl).
Defined.

Lemma signals_fan_out_requests_do_not_witness :
  run (init_world [os_Interrupt]) sched_both = Next world_both ∧
  ((∀ g l, goroutines world_both !! g = Some l → pc l ≠ AtNotify → notify l = [os_Interrupt]) ∧
  (∀ sig, sig ∈ [os_Interrupt] → ∃ w', step world_both (Deliver sig) = Next w' ∧
     ∀ g l, goroutines world_both !! g = Some l → pc l ≠ AtNotify →
       ∃ l', goroutines w' !! g = Some l' ∧
         buf (interruptChannel l') =
           match buf (interruptChannel l) with [] => [sig] | b => b end) ∧
  (∀ g br w', step world_both (Run g br) = Next w' →
     shutdownRequestChannel w' = shutdownRequestChannel world_both ∨
     (pending w' + 1 = pending world_both ∧ received w' = received world_both + 1)) ∧
  (∀ g br w', step world_both (Run g br) = Next w' →
     ∀ g', g' ≠ g → goroutines w' !! g' = goroutines world_both !! g') ∧
  pending world_both + received world_both = raises sched_both).
Proof.
  split; [reflexivity|].
  exact (signals_fan_out_requests_do_not [os_Interrupt] sched_both world_both eq_refl).
Defined.

Lemma interruptSignals_is_fixed_witness :
  run (init_world [os_Interrupt]) sched_both = Next world_both ∧
  (interruptSignals init = [os_Interrupt] ∧
  interruptSignals world_both = [os_Interrupt] ∧
  (∀ a w', step world_both a = Next w' → interruptSignals w' = [os_Interrupt]) ∧
  (∀ g l, goroutines world_both !! g = Some l →
     notify l = if decide (pc l = AtNotify) then [] else [os_Interrupt]) ∧
  (∀ a w' g l l', step world_both a = Next w' → goroutines world_both !! g = Some l →
     goroutines w' !! g = Some l' → pc l ≠ AtNotify → notify l' = notify l)).
Proof.
  split; [reflexivity|].
  exact (interruptSignals_is_fixed [os_Interrupt] sched_both world_both eq_refl).
Defined.

Lemma feed_publishes_once_per_listener_witness :
  run (init_world [os_Interrupt]) sched_feed = Next world_feed ∧
  ((∀ g l, goroutines world_feed !! g = Some l → handle l = None →
     (observed l = [] → publishes l = 0) ∧
     (length (observed l) = 1 → publishes l = 0 →
        ∀ br, ∃ w' l', step world_feed (Run g br) = Next w' ∧ goroutines w' !! g = Some l' ∧
          publishes l' = 1 ∧
          subscribers (InterruptFeed w') = S <$> subscribers (InterruptFeed world_feed)) ∧
     (2 ≤ length (observed l) → publishes l = 1) ∧
     publishes l ≤ 1 ∧
     (publishes l = 1 →
        ∃ e n es, effects l = Logged (first_record e) :: Sent n ::
                              ((Logged ∘ repeated_record) <$> es))) ∧
  total_publishes world_feed ≤ feed_starts sched_feed ∧
  (∀ sched' w', run world_feed sched' = Next w' →
     total_publishes world_feed ≤ total_publishes w' ∧
     total_publishes w' ≤ feed_starts (sched_feed ++ sched') ∧
     (∀ k n, deliveries world_feed k = Some n →
        deliveries w' k = Some (n + (total_publishes w' - total_publishes world_feed))) ∧
     (∀ k n', deliveries world_feed k = None → deliveries w' k = Some n' →
        n' ≤ total_publishes w' - total_publishes world_feed) ∧
     (feed_starts (sched_feed ++ sched') ≤ 1 → total_publishes world_feed = 1 →
        ∀ k n', deliveries world_feed k = None → deliveries w' k = Some n' → n' = 0))).
Proof.
  split; [reflexivity|].
  exact (feed_publishes_once_per_listener [os_Interrupt] sched_feed world_feed eq_refl).
Defined.

(** * Further properties of the code *)

(** ** [InterruptRequested] on an arbitrary channel *)

(** X1.  On any channel, [InterruptRequested] returns true exactly when a
    receive can proceed: a value is buffered, a sender is blocked, or the
    channel is closed.  A closed and drained channel is left as it is, but
    a buffered value is consumed: on an open channel holding one value the
    call returns true and the next call returns false, so outside the
    handles of [InterruptListener] a true result neither means closed nor
    lasts. *)
Theorem InterruptRequested_any_channel (c : Chan unit) :
  ((InterruptRequested c).1 = true ↔ buf c ≠ [] ∨ sendq c ≠ [] ∨ closed c = true) ∧
  (buf c = [] → sendq c = [] → (InterruptRequested c).2 = c) ∧
  (∀ v rest, buf c = v :: rest → sendq c = [] →
     buf (InterruptRequested c).2 = rest ∧
     closed (InterruptRequested c).2 = closed c) ∧
  (∀ v, buf c = [v] → sendq c = [] → closed c = false →
     (InterruptRequested c).1 = true ∧
     (InterruptRequested (InterruptRequested c).2).1 = false).
Proof.
  destruct c as [n b q cl]. unfold InterruptRequested, chanrecv. simpl.
  split_and!.
  - destruct b as [|v b], q as [|s q], cl; simpl; split; try done;
      try (intros [?|[?|?]]; done); try (intros _; by left);
      try (intros _; right; by left); try (intros _; right; by right).
  - by intros -> ->; destruct cl.
  - by intros v rest -> ->.
  - by intros v -> -> ->.
Qed.

(** ** The select of a listener *)

(** X3.  A listener in its first select or in its loop is blocked exactly
    when its signal slot is empty and no raise is pending: the signal case
    is disabled if and only if the slot is empty, the request case if and
    only if nothing is pending, and neither case ever panics. *)
Theorem select_blocks_until_event sigs sched w g l :
  run (init_world sigs) sched = Next w →
  goroutines w !! g = Some l →
  pc l = AtFirstSelect ∨ pc l = AtLoop →
  (step w (Run g CaseSignal) = Disabled ↔ buf (interruptChannel l) = []) ∧
  (step w (Run g CaseRequest) = Disabled ↔ pending w = 0) ∧
  (∀ br, step w (Run g br) ≠ Panic).
Proof.
  intros Hr Hl Hpc.
  destruct (reachable_listener _ _ _ _ _ Hr Hl) as [Hw Hinv].
  pose proof Hw as [Hreq _]. pose proof Hinv as (_ & Hi & _).
  assert (cap (interruptChannel l) = 1 ∧ length (buf (interruptChannel l)) ≤ 1 ∧
          sendq (interruptChannel l) = [] ∧ closed (interruptChannel l) = false)
    as (Hic & Hib & Hiq & Hicl).
  { unfold ichan_ok in Hi. by destruct Hpc as [Hp|Hp]; rewrite Hp in Hi. }
  split_and!.
  - simpl. rewrite Hl. unfold listener_step.
    rewrite (chanrecv_ichan _ Hic Hib Hiq Hicl).
    destruct Hpc as [-> | ->]; by destruct (buf (interruptChannel l)).
  - simpl. rewrite Hl. unfold listener_step, pending.
    rewrite (chanrecv_req _ Hreq).
    destruct Hpc as [-> | ->]; by destruct (sendq (shutdownRequestChannel w)).
  - intros br. by apply step_no_panic.
Qed.

(** ** The two sinks *)

(** X8.  The two variants never touch each other's sink.  A listener of
    [InterruptListener] has published nothing on the feed and none of its
    statements changes the feed; a listener of [StartInterrupteListener]
    has no handle to poll and has closed nothing. *)
Theorem sinks_are_disjoint sigs sched w g l :
  run (init_world sigs) sched = Next w →
  goroutines w !! g = Some l →
  (is_Some (handle l) →
     publishes l = 0 ∧
     ∀ br w', step w (Run g br) = Next w' → InterruptFeed w' = InterruptFeed w) ∧
  (handle l = None → closes l = 0 ∧ poll w g = None).
Proof.
  intros Hr Hl.
  destruct (reachable_listener _ _ _ _ _ Hr Hl) as [Hw Hinv].
  split.
  - intros [c Hc]. split.
    + rewrite (publishes_spec _ _ Hinv), Hc. by rewrite decide_False by (by intros [? ?]).
    + intros br w'. simpl. rewrite Hl.
      destruct (listener_step _ _ _ _ _) as [[[l' req] feed]| |] eqn:Hls; try done.
      intros [= <-]. simpl. revert Hls.
      destruct l as [h p ic n fx]. simpl in Hc. subst h.
      unfold listener_step; simpl.
      destruct p, br; simpl;
        repeat (match goal with
                | |- context [match ?x with _ => _ end] => destruct x
                end; try done);
        by intros [= _ _ <-].
  - intros Hh. split.
    + rewrite (closes_spec _ _ Hinv), Hh.
      by rewrite decide_False by (intros [_ [? ?]]; done).
    + unfold poll. rewrite Hl. simpl. by rewrite Hh.
Qed.

(** ** Nothing but [c] is ever closed *)

(** X10.  In every reachable state the shutdown-request channel and the
    signal channel of every listener are open: the only close in the file
    is [close(c)].  So a receive in a select never yields the zero value
    of a closed channel, and no action at all panics. *)
Theorem only_the_handle_is_closed sigs sched w :
  run (init_world sigs) sched = Next w →
  closed (shutdownRequestChannel w) = false ∧
  (∀ g l, goroutines w !! g = Some l → closed (interruptChannel l) = false) ∧
  (∀ g l ic sig, goroutines w !! g = Some l →
     chanrecv (interruptChannel l) = Some (ic, sig) → is_Some sig) ∧
  (∀ a, step w a ≠ Panic).
Proof.
  intros Hr. pose proof (run_reachable _ _ _ Hr) as Hw.
  pose proof Hw as [(_ & _ & Hcl) _].
  assert (∀ g l, goroutines w !! g = Some l →
            sendq (interruptChannel l) = [] ∧ closed (interruptChannel l) = false) as Hopen.
  { intros g l Hl.
    destruct (reachable_listener _ _ _ _ _ Hr Hl) as [_ (_ & Hi & _)].
    unfold ichan_ok in Hi. destruct (pc l); try (by destruct Hi as (_ & _ & ? & ?)).
    destruct Hi as [-> _]. done. }
  split_and!; try done.
  - intros g l Hl. by destruct (Hopen g l Hl).
  - intros g l ic sig Hl. destruct (Hopen g l Hl) as [Hq Hc].
    unfold chanrecv. rewrite Hq, Hc.
    destruct (buf (interruptChannel l)); [done|]. intros [= _ <-]. by eexists.
  - intros a. by apply step_no_panic.
Qed.

(** ** Single statements of a listener, in a reachable state *)

Lemma step_run_notify w g l br :
  goroutines w !! g = Some l → pc l = AtNotify →
  ∃ w', step w (Run g br) = Next w' ∧
    goroutines w' !! g =
      Some (MkListener (handle l) AtFirstSelect (make 1) (interruptSignals w) (effects l)) ∧
    pending w' = pending w.
Proof.
  intros Hl Hp. eexists. simpl. rewrite Hl. unfold listener_step. rewrite Hp.
  split; [done|]. simpl. split; [|done].
  apply list_lookup_insert_eq. by eapply lookup_lt_Some.
Qed.

Lemma step_select_signal w g l sig rest :
  world_inv w → goroutines w !! g = Some l →
  pc l = AtFirstSelect ∨ pc l = AtLoop →
  buf (interruptChannel l) = sig :: rest →
  ∃ w' l', step w (Run g CaseSignal) = Next w' ∧ goroutines w' !! g = Some l' ∧
    pc l' = (if decide (pc l = AtLoop) then AtLoop else AtFire) ∧
    handle l' = handle l ∧
    effects l' = effects l ++
      [Logged (if decide (pc l = AtLoop) then repeated_record (GotSignal sig)
               else first_record (GotSignal sig))] ∧
    buf (interruptChannel l') = [] ∧ pending w' = pending w.
Proof.
  intros Hw Hl Hpc Hbuf.
  pose proof (world_listener_inv _ _ _ Hw Hl) as (_ & Hi & _).
  assert (cap (interruptChannel l) = 1 ∧ length (buf (interruptChannel l)) ≤ 1 ∧
          sendq (interruptChannel l) = [] ∧ closed (interruptChannel l) = false)
    as (Hic & Hib & Hiq & Hicl).
  { unfold ichan_ok in Hi. by destruct Hpc as [Hp|Hp]; rewrite Hp in Hi. }
  destruct l as [h p ic n fx]. simpl in *.
  destruct Hpc as [-> | ->];
    eexists _, _; rewrite Hl; unfold listener_step; simpl;
    rewrite (chanrecv_ichan ic) by done; rewrite Hbuf;
    (split; [done|]); simpl;
    rewrite list_lookup_insert_eq by (by eapply lookup_lt_Some);
    (split; [done|]); simpl; done.
Qed.

Lemma step_select_request w g l :
  world_inv w → goroutines w !! g = Some l →
  pc l = AtFirstSelect ∨ pc l = AtLoop →
  0 < pending w →
  ∃ w' l', step w (Run g CaseRequest) = Next w' ∧ goroutines w' !! g = Some l' ∧
    pc l' = (if decide (pc l = AtLoop) then AtLoop else AtFire) ∧
    handle l' = handle l ∧
    effects l' = effects l ++
      [Logged (if decide (pc l = AtLoop) then repeated_record GotRequest
               else first_record GotRequest)] ∧
    interruptChannel l' = interruptChannel l ∧ pending w' + 1 = pending w.
Proof.
  intros Hw Hl Hpc Hpos. pose proof Hw as [Hreq _].
  unfold pending in *.
  destruct (sendq (shutdownRequestChannel w)) as [|s ss] eqn:Hq; [simpl in Hpos; lia|].
  destruct l as [h p ic n fx]. simpl in *.
  destruct Hpc as [-> | ->];
    eexists _, _; rewrite Hl; unfold listener_step; simpl;
    rewrite (chanrecv_req _ Hreq), Hq;
    (split; [done|]); simpl;
    rewrite list_lookup_insert_eq by (by eapply lookup_lt_Some);
    (split; [done|]); simpl; split_and!; try done; lia.
Qed.

Lemma step_run_fire w g l br :
  world_inv w → goroutines w !! g = Some l → pc l = AtFire →
  ∃ w' l', step w (Run g br) = Next w' ∧ goroutines w' !! g = Some l' ∧
    pc l' = AtLoop ∧
    handle l' = (λ c, MkChan (cap c) (buf c) [] true) <$> handle l ∧
    interruptChannel l' = interruptChannel l ∧
    observed l' = observed l ∧ pending w' = pending w.
Proof.
  intros Hw Hl Hp.
  pose proof (world_listener_inv _ _ _ Hw Hl) as (Hh & _).
  destruct l as [h p ic n fx]. simpl in *. subst p.
  destruct h as [c|].
  - assert (c = MkChan 0 [] [] false) as -> by (by rewrite (Hh c eq_refl)).
    eexists _, _. rewrite Hl. unfold listener_step; simpl.
    split; [done|]. simpl.
    rewrite list_lookup_insert_eq by (by eapply lookup_lt_Some).
    split; [done|]. simpl. split_and!; try done.
    unfold observed. simpl. by rewrite requests_snoc_other.
  - eexists _, _. rewrite Hl. unfold listener_step; simpl.
    split; [done|]. simpl.
    rewrite list_lookup_insert_eq by (by eapply lookup_lt_Some).
    split; [done|]. simpl. split_and!; try done.
    unfold observed. simpl. by rewrite requests_snoc_other.
Qed.

Lemma run_cons_Next w a w1 rest :
  step w a = Next w1 → run w (a :: rest) = run w1 rest.
Proof. intros Hs. simpl. by rewrite Hs. Qed.

Lemma observed_snoc_logged l l' r :
  effects l' = effects l ++ [Logged r] → observed l' = observed l ++ [r].
Proof. intros He. unfold observed. by rewrite He, omap_app. Qed.

(** ** Both events at the first select *)

(** X4.  When a listener is in its first select with a signal in its slot
    and a raise pending, either case may fire; the event that is not taken
    is not lost: after the notification it is still there, the loop
    receives it and logs it as repeated, and then the slot is empty and
    one raise less is pending. *)
Theorem select_race_loser_is_repeated sigs sched w g l sig :
  run (init_world sigs) sched = Next w →
  goroutines w !! g = Some l → pc l = AtFirstSelect →
  buf (interruptChannel l) = [sig] → 0 < pending w →
  ∀ br brf, ∃ w' l',
    run w [Run g br; Run g brf; Run g (other_case br)] = Next w' ∧
    goroutines w' !! g = Some l' ∧ pc l' = AtLoop ∧
    observed l' =
      match br with
      | CaseSignal => [first_record (GotSignal sig); repeated_record GotRequest]
      | CaseRequest => [first_record GotRequest; repeated_record (GotSignal sig)]
      end ∧
    buf (interruptChannel l') = [] ∧ pending w' + 1 = pending w.
Proof.
  intros Hr Hl Hp Hbuf Hpos br brf.
  destruct (reachable_listener _ _ _ _ _ Hr Hl) as [Hw Hinv].
  assert (observed l = []) as Hobs.
  { pose proof (observed_spec _ _ Hinv) as H. by rewrite Hp in H. }
  destruct br; simpl other_case.
  - destruct (step_select_signal w g l sig [] Hw Hl (or_introl Hp) Hbuf)
      as (w1 & l1 & Hs1 & Hl1 & Hp1 & Hh1 & He1 & Hb1 & Hq1).
    rewrite Hp in Hp1, He1. simpl in Hp1, He1.
    pose proof (step_inv _ _ _ Hw Hs1) as Hw1.
    destruct (step_run_fire w1 g l1 brf Hw1 Hl1 Hp1)
      as (w2 & l2 & Hs2 & Hl2 & Hp2 & Hh2 & Hi2 & Ho2 & Hq2).
    pose proof (step_inv _ _ _ Hw1 Hs2) as Hw2.
    destruct (step_select_request w2 g l2 Hw2 Hl2 (or_intror Hp2) ltac:(lia))
      as (w3 & l3 & Hs3 & Hl3 & Hp3 & Hh3 & He3 & Hi3 & Hq3).
    rewrite Hp2 in Hp3, He3. simpl in Hp3, He3.
    exists w3, l3.
    rewrite (run_cons_Next _ _ _ _ Hs1), (run_cons_Next _ _ _ _ Hs2),
      (run_cons_Next _ _ _ _ Hs3).
    split_and!; try done; try lia.
    + rewrite (observed_snoc_logged _ _ _ He3), Ho2,
        (observed_snoc_logged _ _ _ He1), Hobs. done.
    + by rewrite Hi3, Hi2.
  - destruct (step_select_request w g l Hw Hl (or_introl Hp) Hpos)
      as (w1 & l1 & Hs1 & Hl1 & Hp1 & Hh1 & He1 & Hi1 & Hq1).
    rewrite Hp in Hp1, He1. simpl in Hp1, He1.
    pose proof (step_inv _ _ _ Hw Hs1) as Hw1.
    destruct (step_run_fire w1 g l1 brf Hw1 Hl1 Hp1)
      as (w2 & l2 & Hs2 & Hl2 & Hp2 & Hh2 & Hi2 & Ho2 & Hq2).
    pose proof (step_inv _ _ _ Hw1 Hs2) as Hw2.
    assert (buf (interruptChannel l2) = [sig]) as Hb2 by (by rewrite Hi2, Hi1).
    destruct (step_select_signal w2 g l2 sig [] Hw2 Hl2 (or_intror Hp2) Hb2)
      as (w3 & l3 & Hs3 & Hl3 & Hp3 & Hh3 & He3 & Hb3 & Hq3).
    rewrite Hp2 in Hp3, He3. simpl in Hp3, He3.
    exists w3, l3.
    rewrite (run_cons_Next _ _ _ _ Hs1), (run_cons_Next _ _ _ _ Hs2),
      (run_cons_Next _ _ _ _ Hs3).
    split_and!; try done; try lia.
    rewrite (observed_snoc_logged _ _ _ He3), Ho2,
      (observed_snoc_logged _ _ _ He1), Hobs. done.
Qed.

(** ** From the call to the notification *)

Lemma step_run_feed w g br w' l :
  step w (Run g br) = Next w' → goroutines w !! g = Some l →
  InterruptFeed w' =
    if decide (pc l = AtFire ∧ handle l = None)
    then MkFeed (S <$> subscribers (InterruptFeed w)) else InterruptFeed w.
Proof.
  simpl. intros Hs Hl. rewrite Hl in Hs.
  destruct (listener_step _ _ _ _ _) as [[[l' req] feed]| |] eqn:Hls; try done.
  injection Hs as <-. simpl.
  destruct (decide _) as [[Hp Hh]|Hd]; revert Hls;
    destruct l as [h p ic n fx]; simpl in *; unfold listener_step; simpl.
  - subst. simpl. by intros [= _ _ <-].
  - destruct p, br, h as [c|]; simpl;
      repeat (match goal with
              | |- context [match ?x with _ => _ end] => destruct x
              end; try done);
      try (by intros [= _ _ <-]); by destruct Hd.
Qed.

(** A listener that has not subscribed yet subscribes, receives the event
    brought by [a] and notifies. *)
Lemma fresh_listener_fires sigs sched w g l (a : Action) br1 br2 :
  run (init_world sigs) sched = Next w →
  goroutines w !! g = Some l → pc l = AtNotify →
  (∃ sig, a = Deliver sig ∧ sig ∈ sigs ∧ br1 = CaseSignal) ∨
  (a = RequestShutdown ∧ br1 = CaseRequest) →
  ∃ w' l', run w [Run g br2; a; Run g br1; Run g br2] = Next w' ∧
    goroutines w' !! g = Some l' ∧ pc l' = AtLoop ∧
    handle l' = (λ c, MkChan (cap c) (buf c) [] true) <$> handle l ∧
    observed l' =
      [first_record match a with Deliver sig => GotSignal sig | _ => GotRequest end] ∧
    (InterruptFeed w' =
       if decide (handle l = None)
       then MkFeed (S <$> subscribers (InterruptFeed w)) else InterruptFeed w).
Proof.
  intros Hr Hl Hp Ha.
  destruct (reachable_listener _ _ _ _ _ Hr Hl) as [Hw Hinv].
  pose proof (run_interruptSignals _ _ _ Hr) as Hsigs. simpl in Hsigs.
  assert (effects l = []) as He0.
  { destruct Hinv as (_ & _ & Ht & _). unfold trace_ok in Ht. by rewrite Hp in Ht. }
  (* signal.Notify *)
  destruct (step_run_notify w g l br2 Hl Hp) as (w1 & Hs1 & Hl1 & Hq1).
  set (l1 := MkListener _ _ _ _ _) in Hl1.
  pose proof (step_inv _ _ _ Hw Hs1) as Hw1.
  pose proof (step_run_feed _ _ _ _ _ Hs1 Hl) as Hf1.
  rewrite decide_False in Hf1 by (rewrite Hp; by intros [? ?]).
  pose proof (step_interruptSignals _ _ _ Hs1) as Hsigs1.
  (* the event and the first select *)
  assert (∃ w3 l3, run w1 [a; Run g br1] = Next w3 ∧ goroutines w3 !! g = Some l3 ∧
            pc l3 = AtFire ∧ handle l3 = handle l ∧ world_inv w3 ∧
            InterruptFeed w3 = InterruptFeed w ∧
            observed l3 =
              [first_record match a with Deliver sig => GotSignal sig | _ => GotRequest end])
    as (w3 & l3 & Hr3 & Hl3 & Hp3 & Hh3 & Hw3 & Hf3 & Ho3).
  { destruct Ha as [(sig & -> & Hsig & ->)|[-> ->]].
    - destruct (step_deliver (interruptSignals w1) w1 sig g l1 Hw1 Hl1
                  (world_listener_inv _ _ _ Hw1 Hl1) ltac:(done)
                  ltac:(by rewrite Hsigs1, Hsigs))
        as (w2 & l2 & Hs2 & Hl2 & Hb2 & Hp2 & Hh2 & He2).
      pose proof (step_inv _ _ _ Hw1 Hs2) as Hw2.
      destruct (step_select_signal w2 g l2 sig [] Hw2 Hl2 (or_introl Hp2) Hb2)
        as (w3 & l3 & Hs3 & Hl3 & Hp3 & Hh3 & He3 & _).
      rewrite Hp2 in Hp3, He3. simpl in Hp3, He3.
      pose proof (step_run_feed _ _ _ _ _ Hs3 Hl2) as Hf3.
      rewrite decide_False in Hf3 by (rewrite Hp2; by intros [? ?]).
      exists w3, l3.
      rewrite (run_cons_Next _ _ _ _ Hs2), (run_cons_Next _ _ _ _ Hs3).
      split_and!; try done.
      + by rewrite Hh3, Hh2.
      + by eapply step_inv.
      + rewrite Hf3. simpl in Hs2. injection Hs2 as <-. simpl. by rewrite Hf1.
      + rewrite (observed_snoc_logged _ _ _ He3). unfold observed.
        rewrite He2. unfold l1. simpl. by rewrite He0.
    - destruct (step_raise _ Hw1) as (w2 & Hs2 & Hq2 & Hg2 & _).
      pose proof (step_inv _ _ _ Hw1 Hs2) as Hw2.
      assert (goroutines w2 !! g = Some l1) as Hl2 by (by rewrite Hg2).
      destruct (step_select_request w2 g l1 Hw2 Hl2 (or_introl eq_refl) ltac:(lia))
        as (w3 & l3 & Hs3 & Hl3 & Hp3 & Hh3 & He3 & _).
      simpl in Hp3, He3.
      pose proof (step_run_feed _ _ _ _ _ Hs3 Hl2) as Hf3.
      rewrite decide_False in Hf3 by (by intros [? ?]).
      exists w3, l3.
      rewrite (run_cons_Next _ _ _ _ Hs2), (run_cons_Next _ _ _ _ Hs3).
      split_and!; try done.
      + by eapply step_inv.
      + rewrite Hf3. simpl in Hs2. destruct (sendShutdownRequest _); [|done].
        injection Hs2 as <-. simpl. by rewrite Hf1.
      + rewrite (observed_snoc_logged _ _ _ He3). unfold observed. simpl.
        by rewrite He0. }
  (* the notification *)
  destruct (step_run_fire w3 g l3 br2 Hw3 Hl3 Hp3)
    as (w4 & l4 & Hs4 & Hl4 & Hp4 & Hh4 & _ & Ho4 & _).
  pose proof (step_run_feed _ _ _ _ _ Hs4 Hl3) as Hf4.
  exists w4, l4. rewrite (run_cons_Next _ _ _ _ Hs1).
  change [a; Run g br1; Run g br2] with ([a; Run g br1] ++ [Run g br2]).
  rewrite run_app, Hr3, (run_cons_Next _ _ _ _ Hs4). simpl.
  split_and!; try done.
  - by rewrite Hh4, Hh3.
  - by rewrite Ho4.
  - rewrite Hf4, Hf3, Hh3. destruct (handle l).
    + rewrite decide_False by (by intros [? ?]). by rewrite decide_False.
    + rewrite decide_True by done. by rewrite decide_True.
Qed.

(** X5.  In every reachable state [InterruptListener] returns a handle
    that is open, and its goroutine needs one statement to subscribe, one
    to receive and one to notify: once it has subscribed, the delivery of
    one signal of the set, or one raise of the trigger, followed by two
    statements of the goroutine, leaves the handle closed with exactly the
    one record of that event logged, and the feed untouched. *)
Theorem InterruptListener_end_to_end sigs sched w sig br :
  run (init_world sigs) sched = Next w → sig ∈ sigs →
  (InterruptListener w).2 = length (goroutines w) ∧
  poll (InterruptListener w).1 (length (goroutines w)) = Some false ∧
  (∃ w' l',
     run w [CallInterruptListener; Run (length (goroutines w)) br; Deliver sig;
            Run (length (goroutines w)) CaseSignal;
            Run (length (goroutines w)) br] = Next w' ∧
     goroutines w' !! length (goroutines w) = Some l' ∧
     poll w' (length (goroutines w)) = Some true ∧
     observed l' = [first_record (GotSignal sig)] ∧
     InterruptFeed w' = InterruptFeed w) ∧
  (∃ w' l',
     run w [CallInterruptListener; Run (length (goroutines w)) br; RequestShutdown;
            Run (length (goroutines w)) CaseRequest;
            Run (length (goroutines w)) br] = Next w' ∧
     goroutines w' !! length (goroutines w) = Some l' ∧
     poll w' (length (goroutines w)) = Some true ∧
     observed l' = [first_record GotRequest] ∧
     InterruptFeed w' = InterruptFeed w).
Proof.
  intros Hr Hsig.
  assert (step w CallInterruptListener = Next (InterruptListener w).1) as Hs0 by done.
  assert (run (init_world sigs) (sched ++ [CallInterruptListener]) =
          Next (InterruptListener w).1) as Hr0.
  { rewrite run_app, Hr. by rewrite (run_cons_Next _ _ _ _ Hs0). }
  assert (goroutines (InterruptListener w).1 !! length (goroutines w) =
          Some (spawn (Some (make 0)))) as Hl0.
  { simpl. by apply list_lookup_middle. }
  split; [done|]. split.
  { unfold poll. by rewrite Hl0. }
  split.
  - destruct (fresh_listener_fires sigs _ _ _ _ (Deliver sig) CaseSignal br Hr0 Hl0 eq_refl)
      as (w' & l' & Hr' & Hl' & Hp' & Hh' & Ho' & Hf').
    { left. by exists sig. }
    exists w', l'. rewrite (run_cons_Next _ _ _ _ Hs0).
    split_and!; try done.
    unfold poll. rewrite Hl'. simpl. by rewrite Hh'.
  - destruct (fresh_listener_fires sigs _ _ _ _ RequestShutdown CaseRequest br Hr0 Hl0 eq_refl)
      as (w' & l' & Hr' & Hl' & Hp' & Hh' & Ho' & Hf').
    { by right. }
    exists w', l'. rewrite (run_cons_Next _ _ _ _ Hs0).
    split_and!; try done.
    unfold poll. rewrite Hl'. simpl. by rewrite Hh'.
Qed.

(** X6.  In every reachable state, once the goroutine of
    [StartInterrupteListener] has subscribed, the delivery of one signal of
    the set, or one raise of the trigger, followed by two statements of the
    goroutine, gives every subscriber registered on the feed exactly one
    more delivery, with exactly the one record of that event logged. *)
Theorem StartInterrupteListener_end_to_end sigs sched w sig br :
  run (init_world sigs) sched = Next w → sig ∈ sigs →
  (∃ w' l',
     run w [CallStartInterrupteListener; Run (length (goroutines w)) br; Deliver sig;
            Run (length (goroutines w)) CaseSignal;
            Run (length (goroutines w)) br] = Next w' ∧
     goroutines w' !! length (goroutines w) = Some l' ∧
     pc l' = AtLoop ∧ observed l' = [first_record (GotSignal sig)] ∧
     subscribers (InterruptFeed w') = S <$> subscribers (InterruptFeed w)) ∧
  (∃ w' l',
     run w [CallStartInterrupteListener; Run (length (goroutines w)) br;
            RequestShutdown; Run (length (goroutines w)) CaseRequest;
            Run (length (goroutines w)) br] = Next w' ∧
     goroutines w' !! length (goroutines w) = Some l' ∧
     pc l' = AtLoop ∧ observed l' = [first_record GotRequest] ∧
     subscribers (InterruptFeed w') = S <$> subscribers (InterruptFeed w)).
Proof.
  intros Hr Hsig.
  assert (step w CallStartInterrupteListener = Next (StartInterrupteListener w)) as Hs0
    by done.
  assert (run (init_world sigs) (sched ++ [CallStartInterrupteListener]) =
          Next (StartInterrupteListener w)) as Hr0.
  { rewrite run_app, Hr. by rewrite (run_cons_Next _ _ _ _ Hs0). }
  assert (goroutines (StartInterrupteListener w) !! length (goroutines w) =
          Some (spawn None)) as Hl0.
  { simpl. by apply list_lookup_middle. }
  split.
  - destruct (fresh_listener_fires sigs _ _ _ _ (Deliver sig) CaseSignal br Hr0 Hl0 eq_refl)
      as (w' & l' & Hr' & Hl' & Hp' & Hh' & Ho' & Hf').
    { left. by exists sig. }
    exists w', l'. rewrite (run_cons_Next _ _ _ _ Hs0).
    split_and!; try done. by rewrite Hf'.
  - destruct (fresh_listener_fires sigs _ _ _ _ RequestShutdown CaseRequest br Hr0 Hl0 eq_refl)
      as (w' & l' & Hr' & Hl' & Hp' & Hh' & Ho' & Hf').
    { by right. }
    exists w', l'. rewrite (run_cons_Next _ _ _ _ Hs0).
    split_and!; try done. by rewrite Hf'.
Qed.

(** ** No event is logged that did not happen *)

Lemma signals_snoc fx r :
  length (filter (λ r, is_request r = false) (omap logged (fx ++ [Logged r]))) =
  length (filter (λ r, is_request r = false) (omap logged fx)) +
  (if is_request r then 0 else 1).
Proof.
  rewrite omap_app, filter_app, length_app. simpl.
  destruct (is_request r) eqn:Hr.
  - rewrite filter_cons_False by (by rewrite Hr). done.
  - by rewrite filter_cons_True by done.
Qed.

Lemma observed_partition l :
  length (observed l) = signals_received l + requests_received l.
Proof.
  unfold signals_received, requests_received.
  induction (observed l) as [|r rs IH]; [done|].
  destruct (is_request r) eqn:Hr.
  - rewrite filter_cons_False by (by rewrite Hr).
    rewrite filter_cons_True by done. simpl. lia.
  - rewrite filter_cons_True by done.
    rewrite filter_cons_False by (by rewrite Hr). simpl. lia.
Qed.

Lemma listener_step_signals sigs req feed br l l' req' feed' :
  listener_inv sigs l → req_ok req →
  listener_step sigs req feed br l = Next (l', req', feed') →
  signals_received l' + length (buf (interruptChannel l')) =
  signals_received l + length (buf (interruptChannel l)).
Proof.
  intros (Hh & Hi & Ht & Hn) Hreq.
  destruct l as [h p ic n fx]. unfold listener_step; simpl.
  unfold signals_received, observed, ichan_ok in *; simpl in *.
  destruct p; simpl.
  - destruct Hi as [-> _]. by intros [= <- <- <-].
  - destruct Hi as (Hc & Hb & Hq & Hcl). destruct br.
    + rewrite (chanrecv_ichan ic) by done.
      destruct (buf ic) as [|sig rest] eqn:Hbuf; [done|].
      intros [= <- <- <-]. simpl. rewrite signals_snoc.
      change (Warn "received signal" [("sig", Signal_String sig)])
        with (first_record (GotSignal sig)).
      rewrite (proj1 (is_request_signal sig)). simpl in Hb.
      destruct rest; simpl in *; lia.
    + rewrite (chanrecv_req req) by done.
      destruct (sendq req) as [|s ss]; [done|].
      intros [= <- <- <-]. simpl. rewrite signals_snoc. simpl. lia.
  - destruct h as [c|].
    + destruct (closechan c); [|done]. intros [= <- <- <-]. simpl.
      by rewrite requests_snoc_other.
    + simpl. intros [= <- <- <-]. simpl. by rewrite requests_snoc_other.
  - destruct Hi as (Hc & Hb & Hq & Hcl). destruct br.
    + rewrite (chanrecv_ichan ic) by done.
      destruct (buf ic) as [|sig rest] eqn:Hbuf; [done|].
      intros [= <- <- <-]. simpl. rewrite signals_snoc.
      change (Warn "received signal (repeated)" [("sig", Signal_String sig)])
        with (repeated_record (GotSignal sig)).
      rewrite (proj2 (is_request_signal sig)). simpl in Hb.
      destruct rest; simpl in *; lia.
    + rewrite (chanrecv_req req) by done.
      destruct (sendq req) as [|s ss]; [done|].
      intros [= <- <- <-]. simpl. rewrite signals_snoc. simpl. lia.
Qed.

Lemma trysend_length (ic : Chan Signal) sig :
  length (buf (trysend ic sig)) ≤ S (length (buf ic)).
Proof.
  unfold trysend. destruct (closed ic); [lia|].
  case_decide; simpl; [|lia]. rewrite length_app. simpl. lia.
Qed.

Lemma signals_held_spawn ls h g :
  ls !! g = None →
  match (ls ++ [spawn h]) !! g with
  | Some l => signals_received l + length (buf (interruptChannel l))
  | None => 0
  end = 0.
Proof.
  intros Hg. destruct ((ls ++ [spawn h]) !! g) as [l|] eqn:Hl; [|done].
  apply lookup_app_Some in Hl as [Hl|[_ Hl]]; [congruence|].
  by apply list_lookup_singleton_Some in Hl as [_ <-].
Qed.

Lemma step_signals_held w a w' g :
  world_inv w → step w a = Next w' →
  signals_held w' g ≤ signals_held w g + (if is_deliver a then 1 else 0).
Proof.
  intros Hw Hs. unfold signals_held.
  destruct a; simpl in Hs.
  - injection Hs as <-. simpl.
    destruct (goroutines w !! g) as [l|] eqn:Hl.
    + rewrite (lookup_app_l_Some _ _ _ _ Hl). lia.
    + rewrite signals_held_spawn by done. lia.
  - injection Hs as <-. simpl.
    destruct (goroutines w !! g) as [l|] eqn:Hl.
    + rewrite (lookup_app_l_Some _ _ _ _ Hl). lia.
    + rewrite signals_held_spawn by done. lia.
  - destruct (goroutines w !! g0) as [l0|] eqn:Hl0; [|done].
    destruct (listener_step _ _ _ _ _) as [[[l1 req] feed]| |] eqn:Hls; try done.
    injection Hs as <-. simpl.
    destruct (decide (g0 = g)) as [->|Hne].
    + rewrite Hl0. rewrite list_lookup_insert_eq by (by eapply lookup_lt_Some).
      destruct Hw as [Hreq Hgs].
      pose proof (listener_step_signals _ _ _ _ _ _ _ _
                    (Forall_lookup_1 _ _ _ _ Hgs Hl0) Hreq Hls). lia.
    + rewrite list_lookup_insert_ne by done. lia.
  - injection Hs as <-. simpl. rewrite list_lookup_fmap.
    destruct (goroutines w !! g) as [l|]; simpl; [|lia].
    unfold deliver. case_decide; simpl; [|lia].
    pose proof (trysend_length (interruptChannel l) sig).
    unfold signals_received, observed in *. simpl. lia.
  - destruct (sendShutdownRequest _); [|done]. injection Hs as <-. simpl. lia.
  - injection Hs as <-. simpl. lia.
  - apply (step_poll_id w g0 w' Hw) in Hs as ->. lia.
  - apply (step_await_id w g0 w' Hw) in Hs as ->. lia.
Qed.

Lemma run_signals_held sched : ∀ w w' g,
  world_inv w → run w sched = Next w' →
  signals_held w' g ≤ signals_held w g + signals_delivered sched.
Proof.
  unfold signals_delivered.
  induction sched as [|a rest IH]; simpl; intros w w' g Hw.
  - intros [= <-]. lia.
  - destruct (step w a) as [w1| |] eqn:Hs; try done.
    intros Hr. specialize (IH _ _ g (step_inv _ _ _ Hw Hs) Hr).
    pose proof (step_signals_held _ _ _ g Hw Hs).
    destruct (is_deliver a) eqn:Ha.
    + rewrite filter_cons_True by done. simpl. lia.
    + rewrite filter_cons_False by (by rewrite Ha). lia.
Qed.

(** X7.  A listener never logs an event that did not happen.  The signals
    it has logged, together with the one it may hold in its slot, are at
    most the signals the OS has delivered; the shutdown requests it has
    logged are at most the raises; so its log has at most one record per
    delivered signal and per raise. *)
Theorem log_is_bounded_by_events sigs sched w g l :
  run (init_world sigs) sched = Next w →
  goroutines w !! g = Some l →
  signals_received l + length (buf (interruptChannel l)) ≤ signals_delivered sched ∧
  requests_received l ≤ raises sched ∧
  length (observed l) ≤ signals_delivered sched + raises sched.
Proof.
  intros Hr Hl.
  pose proof (run_signals_held _ _ _ g (init_world_inv sigs) Hr) as Hsig.
  unfold signals_held in Hsig. rewrite Hl in Hsig. simpl in Hsig.
  pose proof (run_requests _ _ _ (init_world_inv sigs) Hr) as Hreq.
  unfold pending at 2, received at 2 in Hreq. simpl in Hreq.
  assert (requests_received l ≤ received w) as Hle.
  { apply sum_list_with_in. by eapply list_elem_of_lookup_2. }
  rewrite observed_partition. lia.
Qed.

(** ** Goroutines only advance *)

Lemma listener_step_advances sigs req feed br l l' req' feed' :
  listener_step sigs req feed br l = Next (l', req', feed') →
  pc_rank (pc l) ≤ pc_rank (pc l') ∧ effects l `prefix_of` effects l'.
Proof.
  destruct l as [h p ic n fx]. unfold listener_step; simpl.
  destruct p, br; simpl;
    repeat (match goal with
            | |- context [match ?x with _ => _ end] => destruct x
            end; try done);
    intros [= <- _ _]; simpl; (split; [lia|]);
    try done; by apply prefix_app_r.
Qed.

Lemma step_advances w a w' g l :
  step w a = Next w' → goroutines w !! g = Some l →
  ∃ l', goroutines w' !! g = Some l' ∧ pc_rank (pc l) ≤ pc_rank (pc l') ∧
        feed_variant l' = feed_variant l ∧ effects l `prefix_of` effects l'.
Proof.
  intros Hs Hl. pose proof (lookup_lt_Some _ _ _ Hl) as Hlt.
  destruct a; simpl in Hs.
  - injection Hs as <-. simpl. exists l. by rewrite lookup_app_l.
  - injection Hs as <-. simpl. exists l. by rewrite lookup_app_l.
  - destruct (goroutines w !! g0) as [l0|] eqn:Hl0; [|done].
    destruct (listener_step _ _ _ _ _) as [[[l1 req] feed]| |] eqn:Hls; try done.
    injection Hs as <-. simpl.
    destruct (decide (g0 = g)) as [->|Hne].
    + rewrite Hl in Hl0. injection Hl0 as <-.
      exists l1. rewrite list_lookup_insert_eq by done.
      destruct (listener_step_advances _ _ _ _ _ _ _ _ Hls) as [? ?].
      by destruct (listener_step_publishes _ _ _ _ _ _ _ _ Hls) as [? _].
    + exists l. by rewrite list_lookup_insert_ne.
  - injection Hs as <-. simpl. exists (deliver sig l).
    rewrite list_lookup_fmap, Hl. simpl. split; [done|]. unfold deliver.
    case_decide; simpl; (split_and!; [lia|done|reflexivity]).
  - destruct (sendShutdownRequest _); [|done]. injection Hs as <-. by exists l.
  - injection Hs as <-. by exists l.
  - destruct (goroutines w !! g0) as [l0|] eqn:Hl0; [|done].
    destruct (handle l0) as [c|] eqn:Hc; [|done]. injection Hs as <-. simpl.
    destruct (decide (g0 = g)) as [->|Hne].
    + rewrite Hl in Hl0. injection Hl0 as <-.
      eexists. rewrite list_lookup_insert_eq by done. split; [done|].
      unfold feed_variant. simpl. by rewrite Hc.
    + exists l. by rewrite list_lookup_insert_ne.
  - destruct (goroutines w !! g0) as [l0|] eqn:Hl0; [|done].
    destruct (handle l0) as [c|] eqn:Hc; [|done].
    destruct (chanrecv c) as [[c' v]|]; [|done]. injection Hs as <-. simpl.
    destruct (decide (g0 = g)) as [->|Hne].
    + rewrite Hl in Hl0. injection Hl0 as <-.
      eexists. rewrite list_lookup_insert_eq by done. split; [done|].
      unfold feed_variant. simpl. by rewrite Hc.
    + exists l. by rewrite list_lookup_insert_ne.
Qed.

Lemma step_length w a w' :
  step w a = Next w' →
  length (goroutines w') = length (goroutines w) + (if is_call a then 1 else 0).
Proof.
  destruct a; simpl; intros Hs;
    repeat (match type of Hs with
            | context [match ?x with _ => _ end] => destruct x
            end; try done);
    injection Hs as <-; simpl;
    rewrite ?length_app, ?length_insert, ?length_fmap; simpl; lia.
Qed.

(** X9.  Every call of [InterruptListener] or [StartInterrupteListener]
    starts one goroutine and no goroutine ever ends: over any run the
    goroutines grow by the number of calls.  Each goroutine stays of its
    variant, its program point never moves backwards, and its effects are
    only ever extended: nothing it has logged or notified is undone. *)
Theorem goroutines_only_advance w sched w' :
  run w sched = Next w' →
  length (goroutines w') = length (goroutines w) + calls sched ∧
  ∀ g l, goroutines w !! g = Some l →
    ∃ l', goroutines w' !! g = Some l' ∧ pc_rank (pc l) ≤ pc_rank (pc l') ∧
          feed_variant l' = feed_variant l ∧ effects l `prefix_of` effects l'.
Proof.
  revert w. unfold calls.
  induction sched as [|a rest IH]; simpl; intros w.
  - intros [= <-]. split; [lia|]. intros g l Hl. by exists l.
  - destruct (step w a) as [w1| |] eqn:Hs; try done.
    intros Hr. destruct (IH _ Hr) as [Hlen Hadv]. split.
    + rewrite Hlen, (step_length _ _ _ Hs). destruct (is_call a) eqn:Ha.
      * rewrite filter_cons_True by done. simpl. lia.
      * rewrite filter_cons_False by (by rewrite Ha). lia.
    + intros g l Hl.
      destruct (step_advances _ _ _ _ _ Hs Hl) as (l1 & Hl1 & Hp1 & Hv1 & He1).
      destruct (Hadv g l1 Hl1) as (l' & Hl' & Hp' & Hv' & He').
      exists l'. split_and!; try done; try lia; try congruence.
      by etrans.
Qed.

(** ** The further properties at the example runs *)

Lemma select_blocks_until_event_witness :
  (run (init_world [os_Interrupt]) sched_both = Next world_both) ∧
  (goroutines world_both !! 0 = Some listener_both) ∧
  (pc listener_both = AtFirstSelect ∨ pc listener_both = AtLoop) ∧
  ((step world_both (Run 0 CaseSignal) = Disabled ↔ buf (interruptChannel listener_both) = []) ∧
  (step world_both (Run 0 CaseRequest) = Disabled ↔ pending world_both = 0) ∧
  (∀ br, step world_both (Run 0 br) ≠ Panic)).
Proof.
  split; [reflexivity|].
  split; [reflexivity|].
  split; [left; reflexivity|].
  apply (select_blocks_until_event [os_Interrupt] sched_both world_both 0 listener_both).
  - reflexivity.
  - reflexivity.
  - left; reflexivity.
Defined.

Lemma select_race_loser_is_repeated_witness :
  (run (init_world [os_Interrupt]) sched_both = Next world_both) ∧
  (goroutines world_both !! 0 = Some listener_both) ∧
  (pc listener_both = AtFirstSelect) ∧
  (buf (interruptChannel listener_both) = [SIGINT]) ∧
  (0 < pending world_both) ∧
  (∀ br brf, ∃ w' l',
    run world_both [Run 0 br; Run 0 brf; Run 0 (other_case br)] = Next w' ∧
    goroutines w' !! 0 = Some l' ∧ pc l' = AtLoop ∧
    observed l' =
      match br with
      | CaseSignal => [first_record (GotSignal SIGINT); repeated_record GotRequest]
      | CaseRequest => [first_record GotRequest; repeated_record (GotSignal SIGINT)]
      end ∧
    buf (interruptChannel l') = [] ∧ pending w' + 1 = pending world_both).
Proof.
  split; [reflexivity|].
  split; [reflexivity|].
  split; [reflexivity|].
  split; [reflexivity|].
  split; [vm_compute; lia|].
  apply (select_race_loser_is_repeated [os_Interrupt] sched_both world_both 0 listener_both SIGINT).
  - reflexivity.
  - reflexivity.
  - reflexivity.
  - reflexivity.
  - vm_compute; lia.
Defined.

Lemma InterruptListener_end_to_end_witness :
  (run (init_world [os_Interrupt]) sched_both = Next world_both) ∧
  (SIGINT ∈ [os_Interrupt]) ∧
  ((InterruptListener world_both).2 = length (goroutines world_both) ∧
  poll (InterruptListener world_both).1 (length (goroutines world_both)) = Some false ∧
  (∃ w' l',
     run world_both [CallInterruptListener; Run (length (goroutines world_both)) CaseSignal; Deliver SIGINT;
            Run (length (goroutines world_both)) CaseSignal;
            Run (length (goroutines world_both)) CaseSignal] = Next w' ∧
     goroutines w' !! length (goroutines world_both) = Some l' ∧
     poll w' (length (goroutines world_both)) = Some true ∧
     observed l' = [first_record (GotSignal SIGINT)] ∧
     InterruptFeed w' = InterruptFeed world_both) ∧
  (∃ w' l',
     run world_both [CallInterruptListener; Run (length (goroutines world_both)) CaseSignal; RequestShutdown;
            Run (length (goroutines world_both)) CaseRequest;
            Run (length (goroutines world_both)) CaseSignal] = Next w' ∧
     goroutines w' !! length (goroutines world_both) = Some l' ∧
     poll w' (length (goroutines world_both)) = Some true ∧
     observed l' = [first_record GotRequest] ∧
     InterruptFeed w' = InterruptFeed world_both)).
Proof.
  split; [reflexivity|].
  split; [apply (bool_decide_unpack _); vm_compute; exact I|].
  apply (InterruptListener_end_to_end [os_Interrupt] sched_both world_both SIGINT CaseSignal).
  - reflexivity.
  - apply (bool_decide_unpack _); vm_compute; exact I.
Defined.

Lemma StartInterrupteListener_end_to_end_witness :
  (run (init_world [os_Interrupt]) sched_feed = Next world_feed) ∧
  (SIGINT ∈ [os_Interrupt]) ∧
  ((∃ w' l',
     run world_feed [CallStartInterrupteListener; Run (length (goroutines world_feed)) CaseSignal; Deliver SIGINT;
            Run (length (goroutines world_feed)) CaseSignal;
            Run (length (goroutines world_feed)) CaseSignal] = Next w' ∧
     goroutines w' !! length (goroutines world_feed) = Some l' ∧
     pc l' = AtLoop ∧ observed l' = [first_record (GotSignal SIGINT)] ∧
     subscribers (InterruptFeed w') = S <$> subscribers (InterruptFeed world_feed)) ∧
  (∃ w' l',
     run world_feed [CallStartInterrupteListener; Run (length (goroutines world_feed)) CaseSignal;
            RequestShutdown; Run (length (goroutines world_feed)) CaseRequest;
            Run (length (goroutines world_feed)) CaseSignal] = Next w' ∧
     goroutines w' !! length (goroutines world_feed) = Some l' ∧
     pc l' = AtLoop ∧ observed l' = [first_record GotRequest] ∧
     subscribers (InterruptFeed w') = S <$> subscribers (InterruptFeed world_feed))).
Proof.
  split; [reflexivity|].
  split; [apply (bool_decide_unpack _); vm_compute; exact I|].
  apply (StartInterrupteListener_end_to_end [os_Interrupt] sched_feed world_feed SIGINT CaseSignal).
  - reflexivity.
  - apply (bool_decide_unpack _); vm_compute; exact I.
Defined.

Lemma log_is_bounded_by_events_witness :
  (run (init_world [os_Interrupt]) sched_fired = Next world_fired) ∧
  (goroutines world_fired !! 0 = Some listener_fired) ∧
  (signals_received listener_fired + length (buf (interruptChannel listener_fired)) ≤ signals_delivered sched_fired ∧
  requests_received listener_fired ≤ raises sched_fired ∧
  length (observed listener_fired) ≤ signals_delivered sched_fired + raises sched_fired).
Proof.
  split; [reflexivity|].
  split; [reflexivity|].
  apply (log_is_bounded_by_events [os_Interrupt] sched_fired world_fired 0 listener_fired).
  - reflexivity.
  - reflexivity.
Defined.

Lemma sinks_are_disjoint_witness :
  (run (init_world [os_Interrupt]) sched_both = Next world_both) ∧
  (goroutines world_both !! 0 = Some listener_both) ∧
  ((is_Some (handle listener_both) →
     publishes listener_both = 0 ∧
     ∀ br w', step world_both (Run 0 br) = Next w' → InterruptFeed w' = InterruptFeed world_both) ∧
  (handle listener_both = None → closes listener_both = 0 ∧ poll world_both 0 = None)).
Proof.
  split; [reflexivity|].
  split; [reflexivity|].
  apply (sinks_are_disjoint [os_Interrupt] sched_both world_both 0 listener_both).
  - reflexivity.
  - reflexivity.
Defined.

Lemma goroutines_only_advance_witness :
  (run world_both sched_more = Next world_more) ∧
  (length (goroutines world_more) = length (goroutines world_both) + calls sched_more ∧
  ∀ g l, goroutines world_both !! g = Some l →
    ∃ l', goroutines world_more !! g = Some l' ∧ pc_rank (pc l) ≤ pc_rank (pc l') ∧
          feed_variant l' = feed_variant l ∧ effects l `prefix_of` effects l').
Proof.
  split; [reflexivity|].
  apply (goroutines_only_advance world_both sched_more world_more).
  - reflexivity.
Defined.

Lemma only_the_handle_is_closed_witness :
  (run (init_world [os_Interrupt]) sched_both = Next world_both) ∧
  (closed (shutdownRequestChannel world_both) = false ∧
  (∀ g l, goroutines world_both !! g = Some l → closed (interruptChannel l) = false) ∧
  (∀ g l ic sig, goroutines world_both !! g = Some l →
     chanrecv (interruptChannel l) = Some (ic, sig) → is_Some sig) ∧
  (∀ a, step world_both a ≠ Panic)).
Proof.
  split; [reflexivity|].
  apply (only_the_handle_is_closed [os_Interrupt] sched_both world_both).
  - reflexivity.
Defined.


(** * The request-shutdown operation *)

(** ** Steps of the process with the operation *)



Lemma run_op_app s1 : ∀ s2 w,
  run_op w (s1 ++ s2) = match run_op w s1 with
                        | Next w1 => run_op w1 s2
                        | Disabled => Disabled
                        | Panic => Panic
                        end.
Proof.
  induction s1 as [|a s1 IH]; simpl; intros s2 w; [done|].
  by destruct (step_op w a).
Qed.









(** ** The trigger holds one pending raise *)



(** ** A raise wakes one wait *)



(** * The signal channel of a listener *)

(** A listener started in a reachable state makes its channel with its
    first statement; of two signals relayed to it then, the slot keeps the
    first, which is what its first select receives. *)
Lemma fresh_listener_slot sigs sched w a h br sig sig' :
  run (init_world sigs) sched = Next w →
  step w a = Next (set_goroutines w (goroutines w ++ [spawn h])) →
  sig ∈ sigs → sig' ∈ sigs →
  ∃ w' l', run w [a; Run (length (goroutines w)) br; Deliver sig; Deliver sig'] = Next w' ∧
    goroutines w' !! length (goroutines w) = Some l' ∧
    cap (interruptChannel l') = 1 ∧ buf (interruptChannel l') = [sig] ∧
    ∃ w'' l'', step w' (Run (length (goroutines w)) CaseSignal) = Next w'' ∧
      goroutines w'' !! length (goroutines w) = Some l'' ∧
      observed l'' = [first_record (GotSignal sig)] ∧
      buf (interruptChannel l'') = [].
Proof.
  intros Hr Hs1 Hsig Hsig'. set (n := length (goroutines w)).
  set (w1 := set_goroutines w (goroutines w ++ [spawn h])) in *.
  assert (goroutines w1 !! n = Some (spawn h)) as Hl1.
  { simpl. by apply list_lookup_middle. }
  destruct (step_run_notify w1 n _ br Hl1 eq_refl) as (w2 & Hs2 & Hl2 & _).
  assert (run (init_world sigs) (sched ++ [a; Run n br]) = Next w2) as Hr2.
  { rewrite run_app, Hr. by rewrite (run_cons_Next _ _ _ _ Hs1), (run_cons_Next _ _ _ _ Hs2). }
  pose proof (run_reachable _ _ _ Hr2) as Hw2.
  pose proof (run_interruptSignals _ _ _ Hr2) as Hsigs2. simpl in Hsigs2.
  destruct (run_deliver [sig; sig'] w2 n _ Hw2 Hl2 ltac:(done))
    as (w3 & l3 & Hr3 & Hl3 & Hb3 & Hp3 & Hh3 & He3).
  { rewrite Hsigs2. by repeat constructor. }
  simpl in Hb3, Hp3, He3.
  assert (world_inv w3) as Hw3.
  { apply (run_reachable sigs (sched ++ [a; Run n br] ++ [Deliver sig; Deliver sig'])).
    rewrite app_assoc, run_app, Hr2. exact Hr3. }
  exists w3, l3.
  rewrite (run_cons_Next _ _ _ _ Hs1), (run_cons_Next _ _ _ _ Hs2).
  split; [exact Hr3|]. split; [done|].
  pose proof (world_listener_inv _ _ _ Hw3 Hl3) as (_ & Hi & _).
  unfold ichan_ok in Hi. rewrite Hp3 in Hi. destruct Hi as (Hc & _).
  split; [done|]. split; [done|].
  destruct (step_select_signal w3 n l3 sig [] Hw3 Hl3 (or_introl Hp3) Hb3)
    as (w4 & l4 & Hs4 & Hl4 & _ & _ & He4 & Hb4 & _).
  rewrite Hp3 in He4. simpl in He4.
  exists w4, l4. split_and!; try done.
  rewrite (observed_snoc_logged _ _ _ He4). unfold observed. by rewrite He3.
Qed.

(** C9.  The shared [shutdownRequestChannel] has capacity 0 and never
    buffers anything.  The first statement of every listener, of either
    variant, makes its own [interruptChannel] with capacity 1 and empty,
    registers it for [interruptSignals] and leaves the other goroutines as
    they are.  From then on the channel has capacity 1 and holds at most
    one signal: of the signals delivered to it in a row while the listener
    does not receive, the slot retains one (the oldest) and the rest are
    dropped, the listener itself being left as it is; the retained signal
    is the one the listener logs at its next receive, which empties the
    slot.  So a listener started by either function in any reachable state,
    to which two signals are relayed after it has subscribed, holds the
    first of them in a channel of capacity 1 and logs it at its first
    select. *)
Theorem interruptChannel_has_one_slot sigs sched w :
  run (init_world sigs) sched = Next w →
  cap (shutdownRequestChannel w) = 0 ∧
  buf (shutdownRequestChannel w) = [] ∧
  (∀ g l, goroutines w !! g = Some l → pc l = AtNotify →
     ∀ br, ∃ w' l', step w (Run g br) = Next w' ∧ goroutines w' !! g = Some l' ∧
       pc l' = AtFirstSelect ∧ interruptChannel l' = make 1 ∧ notify l' = sigs ∧
       ∀ g', g' ≠ g → goroutines w' !! g' = goroutines w !! g') ∧
  (∀ g l, goroutines w !! g = Some l → pc l ≠ AtNotify →
    cap (interruptChannel l) = 1 ∧
    length (buf (interruptChannel l)) ≤ 1 ∧
    (∀ dl, Forall (λ sig, sig ∈ sigs) dl →
       ∃ w' l', run w (Deliver <$> dl) = Next w' ∧ goroutines w' !! g = Some l' ∧
         buf (interruptChannel l') = take 1 (buf (interruptChannel l) ++ dl) ∧
         pc l' = pc l ∧ effects l' = effects l) ∧
    (∀ sig rest, buf (interruptChannel l) = sig :: rest →
       pc l = AtFirstSelect ∨ pc l = AtLoop →
       ∃ w' l', step w (Run g CaseSignal) = Next w' ∧ goroutines w' !! g = Some l' ∧
         buf (interruptChannel l') = [] ∧
         observed l' = observed l ++
           [if decide (pc l = AtLoop) then repeated_record (GotSignal sig)
            else first_record (GotSignal sig)])) ∧
  (∀ br sig sig', sig ∈ sigs → sig' ∈ sigs →
     (∃ w' l',
        run w [CallInterruptListener; Run (length (goroutines w)) br;
               Deliver sig; Deliver sig'] = Next w' ∧
        goroutines w' !! length (goroutines w) = Some l' ∧
        cap (interruptChannel l') = 1 ∧ buf (interruptChannel l') = [sig] ∧
        ∃ w'' l'', step w' (Run (length (goroutines w)) CaseSignal) = Next w'' ∧
          goroutines w'' !! length (goroutines w) = Some l'' ∧
          observed l'' = [first_record (GotSignal sig)] ∧
          buf (interruptChannel l'') = []) ∧
     (∃ w' l',
        run w [CallStartInterrupteListener; Run (length (goroutines w)) br;
               Deliver sig; Deliver sig'] = Next w' ∧
        goroutines w' !! length (goroutines w) = Some l' ∧
        cap (interruptChannel l') = 1 ∧ buf (interruptChannel l') = [sig] ∧
        ∃ w'' l'', step w' (Run (length (goroutines w)) CaseSignal) = Next w'' ∧
          goroutines w'' !! length (goroutines w) = Some l'' ∧
          observed l'' = [first_record (GotSignal sig)] ∧
          buf (interruptChannel l'') = [])).
Proof.
  intros Hr. pose proof (run_reachable _ _ _ Hr) as Hw.
  pose proof Hw as [(Hc & Hb & Hcl) _].
  pose proof (run_interruptSignals _ _ _ Hr) as Hsigs. simpl in Hsigs.
  split_and!; try done.
  - intros g l Hl Hp br.
    destruct (step_run_notify w g l br Hl Hp) as (w' & Hs & Hl' & _).
    eexists w', _. split_and!; try done.
    intros g' Hne. by eapply step_run_other.
  - intros g l Hl Hp.
    destruct (reachable_listener _ _ _ _ _ Hr Hl) as [_ Hinv].
    pose proof Hinv as (_ & Hi & _).
    assert (cap (interruptChannel l) = 1 ∧ length (buf (interruptChannel l)) ≤ 1 ∧
            sendq (interruptChannel l) = [] ∧ closed (interruptChannel l) = false)
      as (Hic & Hib & Hiq & Hicl).
    { unfold ichan_ok in Hi. by destruct (pc l). }
    split_and!; try done.
    + intros dl Hdl. rewrite <- Hsigs in Hdl.
      destruct (run_deliver dl w g l Hw Hl Hp Hdl)
        as (w' & l' & Hr' & Hl' & Hb' & Hp' & _ & He').
      by exists w', l'.
    + intros sig rest Hbuf Hpc.
      destruct (step_select_signal w g l sig rest Hw Hl Hpc Hbuf)
        as (w' & l' & Hs & Hl' & _ & _ & He & Hb' & _).
      exists w', l'. split_and!; try done.
      rewrite (observed_snoc_logged _ _ _ He). done.
  - intros br sig sig' Hsig Hsig'. split.
    + by apply (fresh_listener_slot sigs sched w CallInterruptListener (Some (make 0))).
    + by apply (fresh_listener_slot sigs sched w CallStartInterrupteListener None).
Qed.

Lemma interruptChannel_has_one_slot_witness :
  run (init_world [os_Interrupt]) sched_mixed = Next world_mixed ∧
  (cap (shutdownRequestChannel world_mixed) = 0 ∧
   buf (shutdownRequestChannel world_mixed) = [] ∧
   (∀ g l, goroutines world_mixed !! g = Some l → pc l = AtNotify →
      ∀ br, ∃ w' l', step world_mixed (Run g br) = Next w' ∧
        goroutines w' !! g = Some l' ∧
        pc l' = AtFirstSelect ∧ interruptChannel l' = make 1 ∧
        notify l' = [os_Interrupt] ∧
        ∀ g', g' ≠ g → goroutines w' !! g' = goroutines world_mixed !! g') ∧
   (∀ g l, goroutines world_mixed !! g = Some l → pc l ≠ AtNotify →
     cap (interruptChannel l) = 1 ∧
     length (buf (interruptChannel l)) ≤ 1 ∧
     (∀ dl, Forall (λ sig, sig ∈ [os_Interrupt]) dl →
        ∃ w' l', run world_mixed (Deliver <$> dl) = Next w' ∧
          goroutines w' !! g = Some l' ∧
          buf (interruptChannel l') = take 1 (buf (interruptChannel l) ++ dl) ∧
          pc l' = pc l ∧ effects l' = effects l) ∧
     (∀ sig rest, buf (interruptChannel l) = sig :: rest →
        pc l = AtFirstSelect ∨ pc l = AtLoop →
        ∃ w' l', step world_mixed (Run g CaseSignal) = Next w' ∧
          goroutines w' !! g = Some l' ∧
          buf (interruptChannel l') = [] ∧
          observed l' = observed l ++
            [if decide (pc l = AtLoop) then repeated_record (GotSignal sig)
             else first_record (GotSignal sig)])) ∧
   (∀ br sig sig', sig ∈ [os_Interrupt] → sig' ∈ [os_Interrupt] →
      (∃ w' l',
         run world_mixed [CallInterruptListener; Run (length (goroutines world_mixed)) br;
                Deliver sig; Deliver sig'] = Next w' ∧
         goroutines w' !! length (goroutines world_mixed) = Some l' ∧
         cap (interruptChannel l') = 1 ∧ buf (interruptChannel l') = [sig] ∧
         ∃ w'' l'', step w' (Run (length (goroutines world_mixed)) CaseSignal) = Next w'' ∧
           goroutines w'' !! length (goroutines world_mixed) = Some l'' ∧
           observed l'' = [first_record (GotSignal sig)] ∧
           buf (interruptChannel l'') = []) ∧
      (∃ w' l',
         run world_mixed [CallStartInterrupteListener;
                Run (length (goroutines world_mixed)) br;
                Deliver sig; Deliver sig'] = Next w' ∧
         goroutines w' !! length (goroutines world_mixed) = Some l' ∧
         cap (interruptChannel l') = 1 ∧ buf (interruptChannel l') = [sig] ∧
         ∃ w'' l'', step w' (Run (length (goroutines world_mixed)) CaseSignal) = Next w'' ∧
           goroutines w'' !! length (goroutines world_mixed) = Some l'' ∧
           observed l'' = [first_record (GotSignal sig)] ∧
           buf (interruptChannel l'') = []))).
Proof.
  split; [reflexivity|].
  exact (interruptChannel_has_one_slot [os_Interrupt] sched_mixed world_mixed eq_refl).
Defined.
